(** * Tintinnabuli Visualizer: colour helpers, theme extraction and renderers

    A shallow embedding of [utils.ts] (colour helpers, [generateThemeFromImage],
    [drawPianoRoll], [drawOscilloscope]) together with the properties the
    specification states about them.

    Conventions of the embedding.
    - JavaScript numbers that carry fractional values (times, widths, adjusted
      channel values, luminance) are rationals [Q].  The functions are given
      twice: over exact rationals, for the properties that do not depend on
      rounding, and, in the module [Binary64], with the binary64 rounding
      [fl] after every arithmetic operation, for the properties that do
      (the names there end in [64]).  Overflow, infinities and NaN are
      outside the model.  Integer-valued numbers (bytes, parsed channels,
      track and channel numbers) are [Z].
    - Strings are [string]; only ASCII characters can match the hex regular
      expression, so nothing is lost for [hexToRgb].
    - The canvas is a trace of the calls made on the 2D context, threaded
      through the draw functions. *)

From Stdlib Require Import ZArith QArith Qround Lqa Ascii String List Lia.
From Stdlib Require Import Sorted Permutation.
From Stdlib Require PrimFloat FloatOps SpecFloat.
From stdpp Require Import base option list gmap.

Local Open Scope Z_scope.

(** ** Colour helpers *)

Module Color.

Record Rgb := mkRgb { r : Z; g : Z; b : Z }.

(** The code unit of a character. *)
Definition charCode (c : ascii) : Z := Z.of_N (N_of_ascii c).

Definition inRange (lo hi n : Z) : bool := (lo <=? n) && (n <=? hi).

(** One character of the class [[a-f\d]] under the [i] flag, with the value
    [parseInt] gives it in base 16: [0-9] are the codes 48..57, [a-f] are
    97..102 and [A-F] are 65..70. *)
Definition hexVal (c : ascii) : option Z :=
  let n := charCode c in
  if inRange 48 57 n then Some (n - 48)
  else if inRange 97 102 n then Some (n - 87)
  else if inRange 65 70 n then Some (n - 55)
  else None.

(** [parseInt(s, 16)] on a captured group of two hex digits. *)
Definition parseInt16 (c1 c2 : ascii) : option Z :=
  match hexVal c1, hexVal c2 with
  | Some h, Some l => Some (h * 16 + l)
  | _, _ => None
  end.

(** [/^#?([a-f\d]{2})([a-f\d]{2})([a-f\d]{2})$/i.exec(hex)]: an optional
    leading [#], then exactly six hex digits up to the end of the input. *)
Definition hexToRgb (hex : string) : option Rgb :=
  let body := match hex with
              | String "#"%char rest => rest
              | _ => hex
              end in
  match body with
  | String c1 (String c2 (String c3 (String c4 (String c5 (String c6 EmptyString))))) =>
      match parseInt16 c1 c2, parseInt16 c3 c4, parseInt16 c5 c6 with
      | Some vr, Some vg, Some vb => Some (mkRgb vr vg vb)
      | _, _, _ => None
      end
  | _ => None
  end.

(** [Math.round]: the nearest integer, halves going up. *)
Definition Math_round (x : Q) : Z := Qfloor (x + (1 # 2))%Q.

Definition clampByte (n : Z) : Z := Z.min 255 (Z.max 0 n).

(** The digit [toString(16)] writes for [0 <= d < 16]: [0-9], then [a-f]. *)
Definition digitChar (d : Z) : ascii :=
  ascii_of_N (Z.to_N (if d <? 10 then 48 + d else 87 + d)).

(** [n.toString(16)] for the integers the clamp lets through, [0..255]:
    one digit below 16, two digits from 16 on. *)
Definition toString16 (n : Z) : string :=
  if n <? 16 then String (digitChar n) EmptyString
  else String (digitChar (n / 16)) (String (digitChar (n mod 16)) EmptyString).

(** [s.padStart(2, '0')]. *)
Definition padStart2 (s : string) : string :=
  match s with
  | EmptyString => "00"
  | String c EmptyString => String "0"%char (String c EmptyString)
  | _ => s
  end%string.

Definition channelHex (x : Q) : string :=
  padStart2 (toString16 (clampByte (Math_round x))).

Definition rgbToHex (vr vg vb : Q) : string :=
  ("#" ++ channelHex vr ++ channelHex vg ++ channelHex vb)%string.

Definition getHexLuminance (hex : string) : Q :=
  match hexToRgb hex with
  | None => 0
  | Some rgb =>
      (2126 # 10000) * inject_Z (r rgb) + (7152 # 10000) * inject_Z (g rgb)
      + (722 # 10000) * inject_Z (b rgb)
  end%Q.

(** The test [getHexLuminance(bg) < 128] every caller makes. *)
Definition isDark (hex : string) : bool :=
  if Qlt_le_dec (getHexLuminance hex) 128 then true else false.

(** The inner [adjust] of [adjustColor], with its two captured factors. *)
Definition adjust (bFactor cFactor : Q) (val : Z) : Q :=
  let v := ((inject_Z val - 128) * cFactor + 128)%Q in
  (v + bFactor)%Q.

Definition adjustColor (hex : string) (brightness contrast : Q) : string :=
  match hexToRgb hex with
  | None => hex
  | Some rgb =>
      let bFactor := ((brightness - 100) * (3 # 2))%Q in
      let cFactor := (contrast / 100)%Q in
      rgbToHex (adjust bFactor cFactor (r rgb))
               (adjust bFactor cFactor (g rgb))
               (adjust bFactor cFactor (b rgb))
  end.

(** Clamping a rational channel value to [[0,255]], as the specification
    words it (before rounding and encoding). *)
Definition Qclamp (x : Q) : Q :=
  if Qlt_le_dec x 0 then 0%Q else if Qlt_le_dec 255 x then 255%Q else x.

(** The channel formula in the specification's words: contrast first, then
    brightness. *)
Definition specChannel (brightness contrast : Q) (v : Z) : Q :=
  let v' := ((inject_Z v - 128) * (contrast / 100) + 128)%Q in
  (v' + (brightness - 100) * (3 # 2))%Q.

(** The form [rgbToHex] writes: [#] and six digits out of [0-9a-f]. *)
Definition lowerHexDigit (c : ascii) : bool :=
  inRange 48 57 (charCode c) || inRange 97 102 (charCode c).

Definition canonicalHex (hex : string) : bool :=
  match hex with
  | String "#"%char
      (String c1 (String c2 (String c3 (String c4 (String c5
        (String c6 EmptyString)))))) =>
      lowerHexDigit c1 && lowerHexDigit c2 && lowerHexDigit c3
      && lowerHexDigit c4 && lowerHexDigit c5 && lowerHexDigit c6
  | _ => false
  end.

End Color.

Import Color.

(** ** Theme extraction *)

Module Theme.

Record ThemePalette := mkTheme {
  background : string;
  scope : string;
  tracks : list string;
  text : string
}.

Definition DEFAULT_THEME : ThemePalette :=
  {| background := "#fffbe9";
     scope := "#1a1a1a";
     text := "#1a1a1a";
     tracks := ["#1a1a1a"; "#8c8c8c"; "#4a4a4a"; "#b0b0b0"] |}%string.

(** [data[i]] on the RGBA byte array of the canvas.  [getImageData] returns
    [4 * width * height] bytes, and both loops below start every read at a
    multiple of four, so on such an array no read falls outside it; the
    default is never returned there. *)
Definition byteAt (data : list Z) (i : nat) : Z := default 0 (data !! i).

(** The values [i] takes in [for (let i = 0; i < len; i += step)]. *)
Definition strideIndices (step len : nat) : list nat :=
  (fun k => k * step)%nat <$> seq 0 ((len + step - 1) / step)%nat.

(** [Math.round(v / 10) * 10]. *)
Definition quantize (v : Z) : Z := Math_round (inject_Z v / 10) * 10.

(** The key [`${r},${g},${b}`] of [colorCounts].  The template string is
    injective on triples of integers, so the triple itself is the key. *)
Definition Bucket : Type := Z * Z * Z.

Definition bucketOf (p : Rgb) : Bucket :=
  (quantize (r p), quantize (g p), quantize (b p)).

Record Tally := mkTally {
  colorCounts : gmap (Z * Z * Z) nat;
  maxCount : nat;
  dominantColor : Rgb
}.

Definition tallyInit : Tally :=
  {| colorCounts := ∅; maxCount := 0; dominantColor := mkRgb 0 0 0 |}.

(** One iteration of the first loop, at byte offset [i]. *)
Definition tallyStep (data : list Z) (st : Tally) (i : nat) : Tally :=
  let px := mkRgb (byteAt data i) (byteAt data (i + 1)) (byteAt data (i + 2)) in
  let key := bucketOf px in
  let c := (default 0 (colorCounts st !! key) + 1)%nat in
  let counts := <[key := c]> (colorCounts st) in
  if (maxCount st <? c)%nat
  then {| colorCounts := counts; maxCount := c; dominantColor := px |}
  else {| colorCounts := counts; maxCount := maxCount st;
          dominantColor := dominantColor st |}.

Definition tallyLoop (data : list Z) : Tally :=
  foldl (tallyStep data) tallyInit (strideIndices 4 (length data)).

Definition rawBgHex (data : list Z) : string :=
  let d := dominantColor (tallyLoop data) in
  rgbToHex (inject_Z (r d)) (inject_Z (g d)) (inject_Z (b d)).

(** One iteration of the second loop, at byte offset [i]. *)
Definition accentStep (data : list Z) (potentialColors : list string) (i : nat)
  : list string :=
  let hex := rgbToHex (inject_Z (byteAt data i)) (inject_Z (byteAt data (i + 1)))
                      (inject_Z (byteAt data (i + 2))) in
  if bool_decide (hex ∈ potentialColors) then potentialColors
  else potentialColors ++ [hex].

Definition accentLoop (data : list Z) : list string :=
  foldl (accentStep data) [] (strideIndices 100 (length data)).

(** The rest of the [try] block, from [bgHex] and [potentialColors] on.
    [filteredTracks[0]] is read after the fallback was pushed, when the list
    has an entry; the default below is never returned. *)
Definition finishTheme (bgHex : string) (potentialColors : list string)
  (contrast : Q) : ThemePalette :=
  let isDarkBg := isDark bgHex in
  let filteredTracks :=
    take 5 ((fun hex => adjustColor hex (if isDarkBg then 150 else 50) contrast)
              <$> potentialColors) in
  let filteredTracks :=
    if (length filteredTracks <? 2)%nat
    then filteredTracks ++ [if isDarkBg then "#ffffff" else "#000000"]%string
    else filteredTracks in
  {| background := bgHex;
     scope := default ""%string (filteredTracks !! 0%nat);
     text := default ""%string (filteredTracks !! 0%nat);
     tracks := filteredTracks |}.

(** The body of the [try] block once the pixel data is there. *)
Definition themeFromPixels (data : list Z) (brightness contrast : Q)
  : ThemePalette :=
  let bgHex := adjustColor (rawBgHex data) brightness contrast in
  let potentialColors := accentLoop data in
  finishTheme bgHex potentialColors contrast.

(** What [await getPixelData(imgSrc)] can do: resolve with the bytes of the
    50x50 canvas, or reject. *)
Inductive Decoded :=
| Resolved (data : list Z)
| Rejected.

(** [generateThemeFromImage]; the image decoder of the host is the argument
    [getPixelData].  [imgSrc] is [None] for [null]; the empty string is
    falsy as well. *)
Definition generateThemeFromImage (getPixelData : string -> Decoded)
  (imgSrc : option string) (brightness contrast : Q) : ThemePalette :=
  match imgSrc with
  | None => DEFAULT_THEME
  | Some EmptyString => DEFAULT_THEME
  | Some src =>
      match getPixelData src with
      | Resolved data => themeFromPixels data brightness contrast
      | Rejected => DEFAULT_THEME
      end
  end.

(** *** Vocabulary for the dominant colour *)

(** The [k]-th pixel in raster order, at byte offset [k * 4]. *)
Definition pixelAt (data : list Z) (k : nat) : Rgb :=
  mkRgb (byteAt data (k * 4)) (byteAt data (k * 4 + 1)) (byteAt data (k * 4 + 2)).

Definition bucketAt (data : list Z) (k : nat) : Bucket := bucketOf (pixelAt data k).

(** How many of the first [n] pixels fall into the bucket [key]. *)
Definition frequency (data : list Z) (key : Bucket) (n : nat) : nat :=
  length (filter (fun j => bucketAt data j = key) (seq 0 n)).

(** The dominant colour in the specification's words: the most frequent
    bucket, the first-encountered one among equally frequent buckets, and
    the first pixel seen in that bucket.  Scanning the pixels in raster
    order and moving only to a strictly more frequent bucket keeps the first
    pixel of the first-encountered most frequent bucket. *)
Definition specBucketCounts (data : list Z) : gmap (Z * Z * Z) nat :=
  foldl (fun m k => let key := bucketAt data k in
                    <[key := S (default 0%nat (m !! key))]> m)
        ∅ (seq 0 (length data / 4)%nat).

Definition specDominant (data : list Z) : Rgb :=
  let counts := specBucketCounts data in
  let freq k := default 0%nat (counts !! bucketAt data k) in
  let best := foldl (fun best k => if (freq best <? freq k)%nat then k else best)
                    0%nat (seq 0 (length data / 4)%nat) in
  pixelAt data best.

(** The state of the first loop after [m] pixels. *)
Definition tallyPrefix (data : list Z) (m : nat) : Tally :=
  foldl (tallyStep data) tallyInit ((fun k => k * 4)%nat <$> seq 0 m).

(** What holds of that state: the counts are the bucket frequencies so far,
    [maxCount] bounds them, and [dominantColor] is the pixel at which a
    running count first reached [maxCount]. *)
Definition tallyInv (data : list Z) (m : nat) (st : Tally) : Prop :=
  (forall key, default 0%nat (colorCounts st !! key) = frequency data key m)
  /\ (forall key, (frequency data key m <= maxCount st)%nat)
  /\ match m with
     | O => maxCount st = 0%nat /\ dominantColor st = mkRgb 0 0 0
     | S _ =>
         exists k, (k < m)%nat
           /\ dominantColor st = pixelAt data k
           /\ frequency data (bucketAt data k) (S k) = maxCount st
           /\ forall j, (j < k)%nat ->
                (frequency data (bucketAt data j) (S j) < maxCount st)%nat
     end.

(** A 50x50 image: one pixel [(0,0,0)], then 2499 pixels [(1,1,1)], all
    opaque.  Every pixel quantizes to the bucket [(0,0,0)]. *)
Definition nearBlackImage : list Z :=
  [0; 0; 0; 255] ++ concat (repeat [1; 1; 1; 255] 2499).

(** Four pixels in two buckets, [A B B A]: both buckets are seen twice, [A]
    first. *)
Definition tiedImage : list Z :=
  [0; 0; 0; 255] ++ [200; 0; 0; 255] ++ [201; 0; 0; 255] ++ [1; 1; 1; 255].

End Theme.

Import Theme.

(** ** Renderers *)

Module Render.

(** A value read from [palette[colorIdx]]: [None] is [undefined]. *)
Definition Style := option string.

(** The calls a draw function makes, in order: on the 2D context, and on the
    analyser node. *)
Inductive Effect :=
| Save
| Restore
| SetFillStyle (s : Style)
| SetStrokeStyle (s : Style)
| SetLineWidth (w : Q)
| SetShadowBlur (v : Q)
| SetShadowColor (s : Style)
| SetShadowOffsetX (v : Q)
| SetShadowOffsetY (v : Q)
| SetGlobalAlpha (v : Q)
| FillRect (x y w h : Q)
| RoundRect (x y w h radius : Q)
| BeginPath
| MoveTo (x y : Q)
| LineTo (x y : Q)
| Fill
| Stroke
| GetByteTimeDomainData (bufferLength : nat).

(** The context: everything done on it so far. *)
Definition Canvas := list Effect.

Record NoteEvent := mkNote {
  note : Z;
  velocity : Q;
  startTime : Q;
  duration : Q;
  track : option Z;
  channel : option Z
}.

Definition Qltb (x y : Q) : bool := negb (Qle_bool y x).
Definition Qmax (x y : Q) : Q := if Qle_bool y x then x else y.

(** [n.track || 0]: [undefined] and [0] both give [0]. *)
Definition orZero (v : option Z) : Z := default 0 v.

Definition discriminator (n : NoteEvent) : Z :=
  orZero (track n) + orZero (channel n).

(** [discriminator % palette.length]: the remainder has the sign of the
    dividend, and is [NaN] (here [None]) for an empty palette. *)
Definition colorIdx (n : NoteEvent) (palette : list string) : option Z :=
  match palette with
  | [] => None
  | _ => Some (Z.rem (discriminator n) (Z.of_nat (length palette)))
  end.

(** [palette[colorIdx]]: [undefined] outside [0 .. length-1]. *)
Definition paletteAt (palette : list string) (idx : option Z) : Style :=
  match idx with
  | Some i => if i <? 0 then None else palette !! Z.to_nat i
  | None => None
  end.

Section PianoRoll.

Variables (currentTime : Q) (palette : list string) (backgroundColor : string).
Variables (width height : Q).
(** Whether the context has [roundRect]. *)
Variable hasRoundRect : bool.

Definition isDarkBg : bool := isDark backgroundColor.

Definition TIME_WINDOW : Q := 10.
Definition PX_PER_SEC : Q := width / TIME_WINDOW.
Definition MIN_NOTE : Z := 21.
Definition MAX_NOTE : Z := 108.
Definition TOTAL_KEYS : Z := MAX_NOTE - MIN_NOTE + 1.
Definition NOTE_HEIGHT : Q := height / inject_Z TOTAL_KEYS.
Definition PLAYHEAD_X : Q := width * (25 # 100).

Definition relativeTime (n : NoteEvent) : Q := startTime n - currentTime.
Definition noteX (n : NoteEvent) : Q := PLAYHEAD_X + relativeTime n * PX_PER_SEC.
Definition noteW (n : NoteEvent) : Q := Qmax (duration n * PX_PER_SEC) 3.
Definition noteY (n : NoteEvent) : Q :=
  height - inject_Z (note n - MIN_NOTE) * NOTE_HEIGHT - NOTE_HEIGHT.

(** [x + w > -100 && x < width + 100] *)
Definition onScreen (n : NoteEvent) : bool :=
  Qltb (-100) (noteX n + noteW n) && Qltb (noteX n) (width + 100).

(** [currentTime >= n.startTime && currentTime <= n.startTime + n.duration] *)
Definition isActive (n : NoteEvent) : bool :=
  Qle_bool (startTime n) currentTime
  && Qle_bool currentTime (startTime n + duration n).

Definition rect (x y w h radius : Q) : list Effect :=
  if hasRoundRect then [BeginPath; RoundRect x y w h radius; Fill]
  else [FillRect x y w h].

Definition activeEffects (n : NoteEvent) (fillStyle : Style) : list Effect :=
  [SetShadowBlur 15; SetShadowColor fillStyle;
   SetFillStyle (if isDarkBg then Some "#ffffff"%string else fillStyle)]
  ++ rect (noteX n - 1) (noteY n - 1) (noteW n + 2)
          (NOTE_HEIGHT * (85 # 100) + 2) 4
  ++ [SetShadowBlur 0].

Definition inactiveEffects (n : NoteEvent) (fillStyle : Style) : list Effect :=
  [SetFillStyle fillStyle; SetGlobalAlpha (9 # 10); SetShadowBlur 4;
   SetShadowColor (Some (if isDarkBg then "rgba(0,0,0,0.5)"
                         else "rgba(0,0,0,0.1)")%string);
   SetShadowOffsetX 2; SetShadowOffsetY 2]
  ++ rect (noteX n) (noteY n) (noteW n) (NOTE_HEIGHT * (85 # 100)) 3
  ++ [SetGlobalAlpha 1; SetShadowBlur 0; SetShadowOffsetX 0; SetShadowOffsetY 0].

(** The body of [notes.forEach]. *)
Definition noteEffects (n : NoteEvent) : list Effect :=
  if onScreen n then
    let fillStyle := paletteAt palette (colorIdx n palette) in
    if isActive n then activeEffects n fillStyle
    else inactiveEffects n fillStyle
  else [].

Definition playheadEffects : list Effect :=
  [BeginPath; MoveTo PLAYHEAD_X 0; LineTo PLAYHEAD_X height;
   SetLineWidth (Qmax 2 (width * (2 # 1000)));
   SetStrokeStyle (Some (if isDarkBg then "rgba(255,255,255,0.4)"
                         else "rgba(0,0,0,0.3)")%string);
   Stroke].

Definition drawPianoRoll (ctx : Canvas) (notes : list NoteEvent) : Canvas :=
  ctx ++ [Save; SetFillStyle (Some backgroundColor); FillRect 0 0 width height]
      ++ playheadEffects
      ++ concat (noteEffects <$> notes)
      ++ [Restore].

End PianoRoll.

(** The analyser node: the buffer length it reports and the bytes
    [getByteTimeDomainData] copies into the array. *)
Record AnalyserNode := mkAnalyser {
  frequencyBinCount : nat;
  timeDomainData : list Z
}.

Section Oscilloscope.

Variables (color backgroundColor : string) (width height : Q).

Definition idleEffects : list Effect :=
  [SetStrokeStyle (Some color); SetLineWidth 2; BeginPath;
   MoveTo 0 (height / 2); LineTo width (height / 2); Stroke; Restore].

(** The [for] loop over the samples: [x] grows by [sliceWidth] each turn. *)
Fixpoint waveEffects (sliceWidth : Q) (dataArray : list Z) (i : nat) (x : Q)
  : list Effect :=
  match dataArray with
  | [] => []
  | sample :: rest =>
      let v := (inject_Z sample / 128)%Q in
      let y := (v * height / 2)%Q in
      (if (i =? 0)%nat then MoveTo x y else LineTo x y)
        :: waveEffects sliceWidth rest (S i) (x + sliceWidth)%Q
  end.

(** [new Uint8Array(bufferLength)] after [getByteTimeDomainData]: the bytes
    of the node, cut or zero-filled to [bufferLength]. *)
Definition readSamples (a : AnalyserNode) : list Z :=
  take (frequencyBinCount a)
       (timeDomainData a ++ repeat 0 (frequencyBinCount a)).

Definition drawOscilloscope (ctx : Canvas) (analyser : option AnalyserNode)
  (isPlaying : bool) : Canvas :=
  let ctx := ctx ++ [Save; SetFillStyle (Some backgroundColor);
                     FillRect 0 0 width height] in
  match analyser, isPlaying with
  | Some a, true =>
      let bufferLength := frequencyBinCount a in
      let dataArray := readSamples a in
      let sliceWidth := (width * 1 / inject_Z (Z.of_nat bufferLength))%Q in
      ctx ++ [GetByteTimeDomainData bufferLength;
              SetStrokeStyle (Some color); SetLineWidth 2; BeginPath]
          ++ waveEffects sliceWidth dataArray 0 0
          ++ [LineTo width (height / 2); Stroke; Restore]
  | _, _ => ctx ++ idleEffects
  end.

End Oscilloscope.

(** [isDarkUI] of the application shell: the colour behind the controls is
    fixed in landscape and the theme background in portrait. *)
Definition isDarkUI (isLandscape : bool) (themeBackground : string) : bool :=
  isDark (if isLandscape then "#111111"%string else themeBackground).

End Render.

Import Render.

(** ** MIDI notes: [parseMidi] and [generateMockNotes] *)

Module Midi.

(** What the [@tonejs/midi] parser hands over: per note its pitch, its
    velocity in [[0,1]], its onset and length in seconds, and [note.channel],
    which is [None] when it is not a number; per track [track.channel]
    ([None] for [undefined]) and the notes. *)
Record MidiNote := mkMidiNote {
  midi : Z;
  midiVelocity : Q;
  time : Q;
  midiDuration : Q;
  noteChannel : option Z
}.

Record MidiTrack := mkMidiTrack {
  trackChannel : option Z;
  trackNotes : list MidiNote
}.

(** The object pushed for one note of track [trackIndex]:
    [(typeof noteChannel === 'number') ? noteChannel : (trackChannel || 0)]. *)
Definition noteEventOf (trackIndex : nat) (tr : MidiTrack) (mn : MidiNote)
  : NoteEvent :=
  {| note := midi mn;
     velocity := (midiVelocity mn * 127)%Q;
     startTime := time mn;
     duration := midiDuration mn;
     track := Some (Z.of_nat trackIndex);
     channel := Some (match noteChannel mn with
                      | Some c => c
                      | None => orZero (trackChannel tr)
                      end) |}.

(** [midi.tracks.forEach((track, trackIndex) => track.notes.forEach(...))],
    with the index of the first track of [tracks] as argument. *)
Fixpoint collectNotes (trackIndex : nat) (tracks : list MidiTrack)
  : list NoteEvent :=
  match tracks with
  | [] => []
  | tr :: rest =>
      (noteEventOf trackIndex tr <$> trackNotes tr)
      ++ collectNotes (S trackIndex) rest
  end.

(** [allNotes.sort((a, b) => a.startTime - b.startTime)].  The sort of
    JavaScript is stable and the comparator orders the notes by their start
    time, which fixes the result: ascending start times, equal ones in the
    order they had.  Insertion in front of the first note that does not
    start earlier computes it. *)
Fixpoint insertByStart (n : NoteEvent) (sorted : list NoteEvent)
  : list NoteEvent :=
  match sorted with
  | [] => [n]
  | m :: rest =>
      if Qle_bool (startTime n) (startTime m) then n :: m :: rest
      else m :: insertByStart n rest
  end.

Definition sortByStart (notes : list NoteEvent) : list NoteEvent :=
  foldr insertByStart [] notes.

(** The order the comparator stands for. *)
Definition startsBefore (a b : NoteEvent) : Prop :=
  (startTime a <= startTime b)%Q.

(** The random numbers: [rand k] is what the [k]-th call of [Math.random]
    returns. *)
Definition Random := nat -> Q.

(** The [for] loop of [generateMockNotes] with [turns] turns left; [k] counts
    the calls of [Math.random] made so far. *)
Fixpoint mockLoop (turns : nat) (rand : Random) (k : nat) (time : Q)
  (notes : list NoteEvent) : list NoteEvent :=
  match turns with
  | O => notes
  | S turns' =>
      let isMelody := Qltb (4 # 10) (rand k) in
      if isMelody then
        let n := {| note := 70 + Qfloor (rand (k + 1)%nat * 20);
                    velocity := 90;
                    startTime := time;
                    duration := ((2 # 10) + rand (k + 2)%nat * (5 # 10))%Q;
                    track := Some 1;
                    channel := Some 1 |} in
        mockLoop turns' rand (k + 4)
                 (time + ((2 # 10) + rand (k + 3)%nat * (4 # 10)))%Q
                 (notes ++ [n])
      else
        let n := {| note := 40 + Qfloor (rand (k + 1)%nat * 12);
                    velocity := 70;
                    startTime := time;
                    duration := (8 # 10);
                    track := Some 0;
                    channel := Some 0 |} in
        mockLoop turns' rand (k + 3)
                 (time + ((2 # 10) + rand (k + 2)%nat * (4 # 10)))%Q
                 (notes ++ [n])
  end.

Definition generateMockNotes (rand : Random) : list NoteEvent :=
  mockLoop 200 rand 0 0 [].

(** The two kinds of note the loop pushes: a melody note on track 1, or a
    bass note on track 0. *)
Definition isMockNote (n : NoteEvent) : Prop :=
  (track n = Some 1 /\ channel n = Some 1 /\ 70 <= note n <= 89
   /\ velocity n = 90%Q /\ ((2 # 10) <= duration n < (7 # 10))%Q)
  \/ (track n = Some 0 /\ channel n = Some 0 /\ 40 <= note n <= 51
      /\ velocity n = 70%Q /\ duration n = (8 # 10)%Q).

Definition startsStrictlyBefore (a b : NoteEvent) : Prop :=
  (startTime a < startTime b)%Q.

(** [parseMidi]: [parsed] is what [new Midi(arrayBuffer)] gives, [None]
    when it throws. *)
Definition parseMidi (rand : Random) (parsed : option (list MidiTrack))
  : list NoteEvent :=
  match parsed with
  | Some tracks => sortByStart (collectNotes 0 tracks)
  | None => generateMockNotes rand
  end.

End Midi.

Import Midi.

(** ** The drawing state of the context *)

Module CanvasState.

(** The four settings of the 2D context that the note styling changes and
    restores. *)
Record DrawState := mkDrawState {
  shadowBlur : Q;
  shadowOffsetX : Q;
  shadowOffsetY : Q;
  globalAlpha : Q
}.

(** The context after [ctx.save()] on a fresh canvas. *)
Definition freshState : DrawState :=
  {| shadowBlur := 0; shadowOffsetX := 0; shadowOffsetY := 0; globalAlpha := 1 |}.

Definition applyEffect (st : DrawState) (e : Effect) : DrawState :=
  match e with
  | SetShadowBlur v =>
      {| shadowBlur := v; shadowOffsetX := shadowOffsetX st;
         shadowOffsetY := shadowOffsetY st; globalAlpha := globalAlpha st |}
  | SetShadowOffsetX v =>
      {| shadowBlur := shadowBlur st; shadowOffsetX := v;
         shadowOffsetY := shadowOffsetY st; globalAlpha := globalAlpha st |}
  | SetShadowOffsetY v =>
      {| shadowBlur := shadowBlur st; shadowOffsetX := shadowOffsetX st;
         shadowOffsetY := v; globalAlpha := globalAlpha st |}
  | SetGlobalAlpha v =>
      {| shadowBlur := shadowBlur st; shadowOffsetX := shadowOffsetX st;
         shadowOffsetY := shadowOffsetY st; globalAlpha := v |}
  | _ => st
  end.

Definition applyEffects (st : DrawState) (es : list Effect) : DrawState :=
  foldl applyEffect st es.

(** The effects that put ink on the canvas. *)
Definition paints (e : Effect) : bool :=
  match e with
  | FillRect _ _ _ _ | Fill | Stroke => true
  | _ => false
  end.

(** A path point that lies on a canvas of the given size; effects that
    are not path points count as on the canvas. *)
Definition withinCanvas (width height : Q) (e : Effect) : Prop :=
  match e with
  | MoveTo x y | LineTo x y => (0 <= x <= width /\ 0 <= y <= height)%Q
  | _ => True
  end.

End CanvasState.

Import CanvasState.

(** ** Further vocabulary for theme extraction *)

Module ThemeTerms.

(** The colour string of the [k]-th pixel, as the second loop writes it. *)
Definition pixelHex (data : list Z) (k : nat) : string :=
  rgbToHex (inject_Z (r (pixelAt data k))) (inject_Z (g (pixelAt data k)))
           (inject_Z (b (pixelAt data k))).

(** The second loop after [m] turns: it has looked at the pixels
    [0, 25, ..., 25 * (m - 1)]. *)
Definition accentPrefix (data : list Z) (m : nat) : list string :=
  foldl (accentStep data) [] ((fun j => j * 100)%nat <$> seq 0 m).

End ThemeTerms.

Import ThemeTerms.

(** ** Further vocabulary for colour strings *)

Module ColorTerms.

(** A hex digit as the regular expression sees it, either case. *)
Definition isHexDigit (c : ascii) : bool :=
  existsb (Ascii.eqb c) (list_ascii_of_string "0123456789abcdefABCDEF").

(** Exactly six hex digits. *)
Definition sixHexDigits (s : string) : bool :=
  match s with
  | String c1 (String c2 (String c3 (String c4 (String c5
      (String c6 EmptyString))))) =>
      forallb isHexDigit [c1; c2; c3; c4; c5; c6]
  | _ => false
  end.

End ColorTerms.

Import ColorTerms.

(** ** Binary64 arithmetic *)

(** The numbers of JavaScript are binary64 floating-point numbers: each
    arithmetic operation gives the exact result rounded to the nearest
    number with a 53-bit significand, ties going to the even significand.
    A finite binary64 number is a rational, so the functions whose outcome
    depends on the rounding are modelled over [Q] once more, with the
    rounding [fl] written out after every operation.  Comparisons of finite
    numbers compare their values and need no rounding.  Numbers beyond the
    binary64 range (about 1.8e308), infinities and NaN are outside the
    model. *)

Module Binary64.

(** Rounding to the nearest integer, ties to even. *)
Definition RNE (a : Q) : Z :=
  let f := Qfloor a in
  match (a - inject_Z f ?= 1 # 2)%Q with
  | Lt => f
  | Gt => f + 1
  | Eq => if Z.even f then f else f + 1
  end.

(** Every finite binary64 number is a whole multiple of [2^-1074]. *)
Definition unitScale : Z := 2 ^ 1074.

(** With [X] counted in units of [2^-1074]: the number of low bits to give
    up so that 53 bits remain.  None below [2^53] units, where the numbers
    are [2^-1074] apart (the subnormal numbers and the first binade). *)
Definition shiftOf (X : Q) : Z := Z.max 0 (Z.log2 (Qfloor X) - 52).

(** Rounding of a number that is not negative. *)
Definition flpos (x : Q) : Q :=
  let X := (x * inject_Z unitScale)%Q in
  let s := shiftOf X in
  (inject_Z (RNE (X / inject_Z (2 ^ s)) * 2 ^ s) / inject_Z unitScale)%Q.

(** Rounding to binary64; it is symmetric in the sign. *)
Definition fl (x : Q) : Q :=
  Qred (if Qlt_le_dec x 0 then - flpos (- x) else flpos x).

(** The relative error of one rounding, [2^-53], and the absolute error
    among the smallest numbers, [2^-1075]. *)
Definition eps64 : Q := 1 # 9007199254740992.
Definition tiny64 : Q := ((1 # 2) / inject_Z unitScale)%Q.

(** The numbers the program can hold. *)
Definition isBinary64 (x : Q) : Prop := (fl x == x)%Q.

(** [k] is [x] rounded to the nearest integer, halves going up, and then
    clamped to [[0,255]]. *)
Definition roundedClamped (x : Q) (k : Z) : Prop :=
  exists n : Z,
    (inject_Z n <= x + (1 # 2) < inject_Z n + 1)%Q
    /\ k = (if n <? 0 then 0 else if 255 <? n then 255 else n).

(** *** Colour arithmetic of [utils.ts] in binary64 *)

(** [getHexLuminance]: [0.2126 * rgb.r + 0.7152 * rgb.g + 0.0722 * rgb.b],
    the decimal constants being the nearest binary64 numbers. *)
Definition getHexLuminance64 (hex : string) : Q :=
  match hexToRgb hex with
  | None => 0
  | Some rgb =>
      fl (fl (fl (fl (2126 # 10000) * inject_Z (r rgb))
              + fl (fl (7152 # 10000) * inject_Z (g rgb)))
          + fl (fl (722 # 10000) * inject_Z (b rgb)))
  end%Q.

Definition isDark64 (hex : string) : bool :=
  if Qlt_le_dec (getHexLuminance64 hex) 128 then true else false.

(** The inner [adjust] of [adjustColor]. *)
Definition adjust64 (bFactor cFactor : Q) (val : Z) : Q :=
  let v := fl (fl (fl (inject_Z val - 128) * cFactor) + 128)%Q in
  fl (v + bFactor)%Q.

Definition adjustColor64 (hex : string) (brightness contrast : Q) : string :=
  match hexToRgb hex with
  | None => hex
  | Some rgb =>
      let bFactor := fl (fl (brightness - 100) * (3 # 2))%Q in
      let cFactor := fl (contrast / 100)%Q in
      rgbToHex (adjust64 bFactor cFactor (r rgb))
               (adjust64 bFactor cFactor (g rgb))
               (adjust64 bFactor cFactor (b rgb))
  end.

(** The channel formula in the specification's words, in the arithmetic of
    the program: contrast first, then brightness. *)
Definition specChannel64 (brightness contrast : Q) (v : Z) : Q :=
  let v' := fl (fl (fl (inject_Z v - 128) * fl (contrast / 100)) + 128)%Q in
  fl (v' + fl (fl (brightness - 100) * (3 # 2)))%Q.

(** *** Theme extraction in binary64 *)

(** The pixel loops work on bytes and are as before; the adjustment and the
    dark test are the binary64 ones. *)
Definition finishTheme64 (bgHex : string) (potentialColors : list string)
  (contrast : Q) : ThemePalette :=
  let isDarkBg := isDark64 bgHex in
  let filteredTracks :=
    take 5 ((fun hex => adjustColor64 hex (if isDarkBg then 150 else 50) contrast)
              <$> potentialColors) in
  let filteredTracks :=
    if (length filteredTracks <? 2)%nat
    then filteredTracks ++ [if isDarkBg then "#ffffff" else "#000000"]%string
    else filteredTracks in
  {| background := bgHex;
     scope := default ""%string (filteredTracks !! 0%nat);
     text := default ""%string (filteredTracks !! 0%nat);
     tracks := filteredTracks |}.

Definition themeFromPixels64 (data : list Z) (brightness contrast : Q)
  : ThemePalette :=
  let bgHex := adjustColor64 (rawBgHex data) brightness contrast in
  let potentialColors := accentLoop data in
  finishTheme64 bgHex potentialColors contrast.

Definition generateThemeFromImage64 (getPixelData : string -> Decoded)
  (imgSrc : option string) (brightness contrast : Q) : ThemePalette :=
  match imgSrc with
  | None => DEFAULT_THEME
  | Some EmptyString => DEFAULT_THEME
  | Some src =>
      match getPixelData src with
      | Resolved data => themeFromPixels64 data brightness contrast
      | Rejected => DEFAULT_THEME
      end
  end.

(** What the accent scan keeps, adjusted against the background [bgHex]. *)
Definition accents64 (data : list Z) (bgHex : string) (contrast : Q)
  : list string :=
  take 5 ((fun hex => adjustColor64 hex (if isDark64 bgHex then 150 else 50)
                                    contrast) <$> accentLoop data).

(** A flat 50x50 image of the colour (12, 175, 4), whose luminance falls
    just below 128 in binary64. *)
Definition flatGreenImage : list Z := concat (repeat [12; 175; 4; 255] 2500).

(** *** The piano roll in binary64 *)

Section PianoRoll64.

Variables (currentTime : Q) (palette : list string) (backgroundColor : string).
Variables (width height : Q).
Variable hasRoundRect : bool.

Definition isDarkBg64 : bool := isDark64 backgroundColor.

Definition PX_PER_SEC64 : Q := fl (width / TIME_WINDOW).
Definition NOTE_HEIGHT64 : Q := fl (height / inject_Z TOTAL_KEYS).
Definition PLAYHEAD_X64 : Q := fl (width * (25 # 100)).

Definition relativeTime64 (n : NoteEvent) : Q := fl (startTime n - currentTime).
Definition noteX64 (n : NoteEvent) : Q :=
  fl (PLAYHEAD_X64 + fl (relativeTime64 n * PX_PER_SEC64)).
Definition noteW64 (n : NoteEvent) : Q :=
  Qmax (fl (duration n * PX_PER_SEC64)) 3.
Definition noteY64 (n : NoteEvent) : Q :=
  fl (fl (height - fl (inject_Z (note n - MIN_NOTE) * NOTE_HEIGHT64))
      - NOTE_HEIGHT64).

(** [x + w > -100 && x < width + 100] *)
Definition onScreen64 (n : NoteEvent) : bool :=
  Qltb (-100) (fl (noteX64 n + noteW64 n))
  && Qltb (noteX64 n) (fl (width + 100)).

(** [currentTime >= n.startTime && currentTime <= n.startTime + n.duration] *)
Definition isActive64 (n : NoteEvent) : bool :=
  Qle_bool (startTime n) currentTime
  && Qle_bool currentTime (fl (startTime n + duration n)).

Definition activeEffects64 (n : NoteEvent) (fillStyle : Style) : list Effect :=
  [SetShadowBlur 15; SetShadowColor fillStyle;
   SetFillStyle (if isDarkBg64 then Some "#ffffff"%string else fillStyle)]
  ++ rect hasRoundRect (fl (noteX64 n - 1)) (fl (noteY64 n - 1))
          (fl (noteW64 n + 2))
          (fl (fl (NOTE_HEIGHT64 * fl (85 # 100)) + 2)) 4
  ++ [SetShadowBlur 0].

Definition inactiveEffects64 (n : NoteEvent) (fillStyle : Style) : list Effect :=
  [SetFillStyle fillStyle; SetGlobalAlpha (fl (9 # 10)); SetShadowBlur 4;
   SetShadowColor (Some (if isDarkBg64 then "rgba(0,0,0,0.5)"
                         else "rgba(0,0,0,0.1)")%string);
   SetShadowOffsetX 2; SetShadowOffsetY 2]
  ++ rect hasRoundRect (noteX64 n) (noteY64 n) (noteW64 n)
          (fl (NOTE_HEIGHT64 * fl (85 # 100))) 3
  ++ [SetGlobalAlpha 1; SetShadowBlur 0; SetShadowOffsetX 0; SetShadowOffsetY 0].

(** The body of [notes.forEach]. *)
Definition noteEffects64 (n : NoteEvent) : list Effect :=
  if onScreen64 n then
    let fillStyle := paletteAt palette (colorIdx n palette) in
    if isActive64 n then activeEffects64 n fillStyle
    else inactiveEffects64 n fillStyle
  else [].

Definition playheadEffects64 : list Effect :=
  [BeginPath; MoveTo PLAYHEAD_X64 0; LineTo PLAYHEAD_X64 height;
   SetLineWidth (Qmax 2 (fl (width * fl (2 # 1000))));
   SetStrokeStyle (Some (if isDarkBg64 then "rgba(255,255,255,0.4)"
                         else "rgba(0,0,0,0.3)")%string);
   Stroke].

Definition drawPianoRoll64 (ctx : Canvas) (notes : list NoteEvent) : Canvas :=
  ctx ++ [Save; SetFillStyle (Some backgroundColor); FillRect 0 0 width height]
      ++ playheadEffects64
      ++ concat (noteEffects64 <$> notes)
      ++ [Restore].

End PianoRoll64.

(** A note from 0.1 s lasting 0.2 s, both as the nearest binary64 numbers;
    the binary64 sum of the two is larger than their exact sum. *)
Definition tenthNote : NoteEvent :=
  {| note := 60; velocity := 100; startTime := fl (1 # 10);
     duration := fl (2 # 10); track := Some 0; channel := Some 0 |}.

(** The time [0.1 + 0.2] as the program computes it,
    0.30000000000000004. *)
Definition lateTime : Q := fl (fl (1 # 10) + fl (2 # 10)).

(** *** Primitive binary64 numbers *)

Definition Qpow2 (e : Z) : Q :=
  match e with
  | Z0 => 1
  | Zpos p => inject_Z (2 ^ Zpos p)
  | Zneg p => / inject_Z (2 ^ Zpos p)
  end%Q.

(** The value of a finite primitive binary64 number. *)
Definition valueOf (f : PrimFloat.float) : option Q :=
  match FloatOps.Prim2SF f with
  | SpecFloat.S754_zero _ => Some 0%Q
  | SpecFloat.S754_finite s m e =>
      Some (Qred ((if s then -1 else 1) * inject_Z (Zpos m) * Qpow2 e))%Q
  | _ => None
  end.

End Binary64.

Import Binary64.

(** ** Properties of the dominant colour *)

(** Quantizing sends a channel to the nearest multiple of ten, halves up. *)
Lemma quantize_nearest_ten (v : Z) : quantize v = (v + 5) / 10 * 10.
Proof.
  unfold quantize, Math_round, Qfloor, Qdiv, Qmult, Qplus, Qinv, inject_Z; simpl.
  f_equal. Z.div_mod_to_equations; lia.
Qed.

Section DominantFacts.

Local Open Scope nat_scope.

Variable data : list Z.

Lemma frequency_S (key : Bucket) (m : nat) :
  frequency data key (S m)
  = frequency data key m + (if decide (bucketAt data m = key) then 1 else 0).
Proof.
  unfold frequency. rewrite seq_S, filter_app, List.length_app. simpl.
  rewrite filter_cons, filter_nil. case_decide; simpl; lia.
Qed.

Lemma frequency_mono (key : Bucket) (m m' : nat) :
  m <= m' -> frequency data key m <= frequency data key m'.
Proof.
  induction 1 as [|m' _ IH]; [lia|].
  rewrite frequency_S. lia.
Qed.

Lemma frequency_own (m : nat) :
  frequency data (bucketAt data m) (S m) = S (frequency data (bucketAt data m) m).
Proof. rewrite frequency_S. rewrite decide_True by reflexivity. lia. Qed.

(** A later pixel of the same bucket makes the final count larger. *)
Lemma frequency_later (k j n : nat) :
  k < j < n -> bucketAt data j = bucketAt data k ->
  frequency data (bucketAt data k) (S k) < frequency data (bucketAt data k) n.
Proof.
  intros [Hkj Hjn] E.
  pose proof (frequency_mono (bucketAt data k) (S k) j ltac:(lia)).
  pose proof (frequency_mono (bucketAt data k) (S j) n ltac:(lia)).
  pose proof (frequency_own j) as Hown. rewrite E in Hown. lia.
Qed.

Lemma tallyPrefix_S (m : nat) :
  tallyPrefix data (S m) = tallyStep data (tallyPrefix data m) (m * 4).
Proof.
  unfold tallyPrefix. now rewrite seq_S, fmap_app, foldl_app.
Qed.

Lemma tallyInv_init : tallyInv data 0 tallyInit.
Proof.
  split; [|split].
  - intros key. reflexivity.
  - intros key. reflexivity.
  - split; reflexivity.
Qed.

Lemma tallyInv_step (m : nat) (st : Tally) :
  tallyInv data m st -> tallyInv data (S m) (tallyStep data st (m * 4)).
Proof.
  intros (Hcnt & Hmax & Hdom).
  unfold tallyStep. fold (pixelAt data m). fold (bucketAt data m).
  set (key := bucketAt data m).
  assert (Hc : default 0 (colorCounts st !! key) + 1 = frequency data key (S m)).
  { rewrite Hcnt. unfold key. rewrite frequency_own. lia. }
  rewrite Hc.
  assert (Hcnt' : forall key',
             default 0 (<[key := frequency data key (S m)]> (colorCounts st) !! key')
             = frequency data key' (S m)).
  { intros key'. destruct (decide (key = key')) as [<-|Hne].
    - now rewrite lookup_insert_eq.
    - rewrite lookup_insert_ne by assumption. rewrite Hcnt, frequency_S.
      fold key. rewrite decide_False by assumption. lia. }
  assert (Hother : forall key', key <> key' ->
             frequency data key' (S m) = frequency data key' m).
  { intros key' Hne. rewrite frequency_S. fold key.
    rewrite decide_False by assumption. lia. }
  destruct (maxCount st <? frequency data key (S m)) eqn:Hlt.
  - apply Nat.ltb_lt in Hlt.
    split; [exact Hcnt'|]. split; simpl.
    + intros key'. destruct (decide (key = key')) as [<-|Hne]; [lia|].
      rewrite Hother by assumption. specialize (Hmax key'). lia.
    + exists m. split; [lia|]. split; [reflexivity|]. split; [reflexivity|].
      intros j Hj.
      pose proof (frequency_mono (bucketAt data j) (S j) m ltac:(lia)).
      specialize (Hmax (bucketAt data j)). lia.
  - apply Nat.ltb_ge in Hlt.
    split; [exact Hcnt'|]. split; simpl.
    + intros key'. destruct (decide (key = key')) as [<-|Hne]; [lia|].
      rewrite Hother by assumption. apply Hmax.
    + destruct m as [|m'].
      * destruct Hdom as [H0 _]. unfold key in Hlt. rewrite frequency_own in Hlt. lia.
      * destruct Hdom as (k & Hk & Hd & Hr & Hbefore).
        exists k. split; [lia|]. auto.
Qed.

Lemma tallyInv_prefix (m : nat) : tallyInv data m (tallyPrefix data m).
Proof.
  induction m as [|m IH]; [apply tallyInv_init|].
  rewrite tallyPrefix_S. now apply tallyInv_step.
Qed.

Lemma strideIndices_pixels (n : nat) :
  strideIndices 4 (4 * n) = (fun k => k * 4) <$> seq 0 n.
Proof.
  unfold strideIndices. f_equal. f_equal.
  replace (4 * n + 4 - 1) with (3 + n * 4) by lia.
  rewrite Nat.div_add by lia. reflexivity.
Qed.

Lemma tallyLoop_prefix (n : nat) :
  length data = 4 * n -> tallyLoop data = tallyPrefix data n.
Proof.
  intros Hlen. unfold tallyLoop, tallyPrefix.
  now rewrite Hlen, strideIndices_pixels.
Qed.

End DominantFacts.

(** C1, as the code has it.  On the bytes of an image of [n > 0] pixels the
    first loop tallies the frequency of every quantized triplet and returns,
    at original precision, a pixel [k] of a most frequent bucket.  That pixel
    is the one at which the bucket's tally reached its final, winning count:
    the last pixel of the bucket in raster order, not the first.  Among
    equally frequent buckets the winner is the one whose tally reached that
    count first: at no earlier pixel had any running tally got that far. *)
Theorem dominant_is_where_tally_peaked (data : list Z) (n : nat) :
  length data = (4 * n)%nat -> (0 < n)%nat ->
  (forall key, default 0%nat (colorCounts (tallyLoop data) !! key)
               = frequency data key n)
  /\ exists k, (k < n)%nat
     /\ dominantColor (tallyLoop data) = pixelAt data k
     /\ (forall key, (frequency data key n
                      <= frequency data (bucketAt data k) n)%nat)
     /\ (forall j, (k < j < n)%nat -> bucketAt data j <> bucketAt data k)
     /\ (forall j, (j < k)%nat ->
           (frequency data (bucketAt data j) (S j)
            < frequency data (bucketAt data k) n)%nat).
Proof.
  intros Hlen Hn.
  rewrite (tallyLoop_prefix data n Hlen).
  destruct (tallyInv_prefix data n) as (Hcnt & Hmax & Hdom).
  split; [exact Hcnt|].
  destruct n as [|n']; [lia|].
  destruct Hdom as (k & Hk & Hd & Hr & Hbefore).
  assert (Hfin : frequency data (bucketAt data k) (S n') = maxCount (tallyPrefix data (S n'))).
  { pose proof (frequency_mono data (bucketAt data k) (S k) (S n') ltac:(lia)).
    specialize (Hmax (bucketAt data k)). lia. }
  exists k. split; [exact Hk|]. split; [exact Hd|]. split; [|split].
  - intros key. rewrite Hfin. apply Hmax.
  - intros j Hj E.
    pose proof (frequency_later data k j (S n') Hj E). lia.
  - intros j Hj. rewrite Hfin. now apply Hbefore.
Qed.

Lemma dominant_is_where_tally_peaked_witness :
  exists k, (k < 4)%nat
    /\ dominantColor (tallyLoop tiedImage) = pixelAt tiedImage k
    /\ (forall key, (frequency tiedImage key 4
                     <= frequency tiedImage (bucketAt tiedImage k) 4)%nat)
    /\ (forall j, (k < j < 4)%nat -> bucketAt tiedImage j <> bucketAt tiedImage k)
    /\ (forall j, (j < k)%nat ->
          (frequency tiedImage (bucketAt tiedImage j) (S j)
           < frequency tiedImage (bucketAt tiedImage k) 4)%nat).
Proof.
  exact (proj2 (dominant_is_where_tally_peaked tiedImage 4 eq_refl
                  (Nat.lt_0_succ 3))).
Defined.

(** C1, as stated, fails.  In [nearBlackImage] every pixel is in the one
    bucket [(0,0,0)], whose first-seen pixel is [(0,0,0)]; the loop returns
    [(1,1,1)], the last one.  In [tiedImage] the first-encountered of the two
    equally frequent buckets is that of [(0,0,0)]; the loop returns a pixel
    of the other. *)
Lemma dominant_not_first_seen :
  length nearBlackImage = (4 * 50 * 50)%nat
  /\ specDominant nearBlackImage = mkRgb 0 0 0
  /\ dominantColor (tallyLoop nearBlackImage) = mkRgb 1 1 1
  /\ dominantColor (tallyLoop nearBlackImage) <> specDominant nearBlackImage
  /\ specDominant tiedImage = mkRgb 0 0 0
  /\ dominantColor (tallyLoop tiedImage) = mkRgb 201 0 0
  /\ bucketOf (dominantColor (tallyLoop tiedImage))
     <> bucketOf (specDominant tiedImage).
Proof.
  assert (E1 : specDominant nearBlackImage = mkRgb 0 0 0)
    by (vm_compute; reflexivity).
  assert (E2 : dominantColor (tallyLoop nearBlackImage) = mkRgb 1 1 1)
    by (vm_compute; reflexivity).
  assert (E3 : specDominant tiedImage = mkRgb 0 0 0)
    by (vm_compute; reflexivity).
  assert (E4 : dominantColor (tallyLoop tiedImage) = mkRgb 201 0 0)
    by (vm_compute; reflexivity).
  split; [vm_compute; reflexivity|]. split; [exact E1|]. split; [exact E2|].
  split; [rewrite E1, E2; discriminate|]. split; [exact E3|].
  split; [exact E4|]. rewrite E3, E4. vm_compute. discriminate.
Qed.

(** ** Properties of the colour helpers *)

Section ColorFacts.

Local Open Scope Z_scope.

Lemma Math_round_inject_Z (z : Z) : Math_round (inject_Z z) = z.
Proof.
  unfold Math_round, Qfloor, Qplus, inject_Z; simpl.
  Z.div_mod_to_equations; lia.
Qed.

Lemma Math_round_Qeq (x y : Q) : (x == y)%Q -> Math_round x = Math_round y.
Proof. intros E. unfold Math_round. now rewrite E. Qed.

Lemma clampByte_range (n : Z) : 0 <= clampByte n <= 255.
Proof. unfold clampByte; lia. Qed.

Lemma clampByte_id (n : Z) : 0 <= n <= 255 -> clampByte n = n.
Proof. unfold clampByte; lia. Qed.

Lemma digit_cases (d : Z) :
  0 <= d < 16 ->
  d = 0 \/ d = 1 \/ d = 2 \/ d = 3 \/ d = 4 \/ d = 5 \/ d = 6 \/ d = 7 \/
  d = 8 \/ d = 9 \/ d = 10 \/ d = 11 \/ d = 12 \/ d = 13 \/ d = 14 \/ d = 15.
Proof. lia. Qed.

Ltac each_digit d H :=
  destruct (digit_cases d H) as
    [->|[->|[->|[->|[->|[->|[->|[->|[->|[->|[->|[->|[->|[->|[->| ->]]]]]]]]]]]]]]].

Ltac each_ascii c := destruct c as [[|] [|] [|] [|] [|] [|] [|] [|]].

Lemma hexVal_digitChar (d : Z) : 0 <= d < 16 -> hexVal (digitChar d) = Some d.
Proof. intros H. each_digit d H; reflexivity. Qed.

Lemma inRange_spec (lo hi n : Z) : inRange lo hi n = true <-> lo <= n <= hi.
Proof. unfold inRange. rewrite andb_true_iff, !Z.leb_le. reflexivity. Qed.

Lemma hexVal_range (c : ascii) (v : Z) : hexVal c = Some v -> 0 <= v < 16.
Proof.
  unfold hexVal.
  destruct (inRange 48 57 (charCode c)) eqn:E1;
    [apply inRange_spec in E1; intros [= <-]; lia|].
  destruct (inRange 97 102 (charCode c)) eqn:E2;
    [apply inRange_spec in E2; intros [= <-]; lia|].
  destruct (inRange 65 70 (charCode c)) eqn:E3;
    [apply inRange_spec in E3; intros [= <-]; lia|discriminate].
Qed.

Lemma parseInt16_range (c1 c2 : ascii) (v : Z) :
  parseInt16 c1 c2 = Some v -> 0 <= v <= 255.
Proof.
  unfold parseInt16.
  destruct (hexVal c1) as [h|] eqn:E1; [|discriminate].
  destruct (hexVal c2) as [l|] eqn:E2; [|discriminate].
  intros [= <-].
  apply hexVal_range in E1; apply hexVal_range in E2; lia.
Qed.

(** The two characters [rgbToHex] writes for a byte, read back. *)
Lemma byte_text (n : Z) :
  0 <= n <= 255 ->
  exists c1 c2,
    padStart2 (toString16 n) = String c1 (String c2 EmptyString)
    /\ parseInt16 c1 c2 = Some n.
Proof.
  intros Hn. unfold toString16.
  destruct (n <? 16) eqn:Hlt.
  - apply Z.ltb_lt in Hlt.
    exists "0"%char, (digitChar n). split; [reflexivity|].
    unfold parseInt16. rewrite hexVal_digitChar by lia. reflexivity.
  - apply Z.ltb_ge in Hlt.
    exists (digitChar (n / 16)), (digitChar (n mod 16)). split; [reflexivity|].
    unfold parseInt16.
    rewrite !hexVal_digitChar by (Z.div_mod_to_equations; lia).
    f_equal. Z.div_mod_to_equations; lia.
Qed.

Lemma channelHex_text (x : Q) :
  exists c1 c2,
    channelHex x = String c1 (String c2 EmptyString)
    /\ parseInt16 c1 c2 = Some (clampByte (Math_round x)).
Proof. apply byte_text, clampByte_range. Qed.

(** Parsing what [rgbToHex] wrote gives the rounded, clamped channels. *)
Lemma hexToRgb_rgbToHex (x y z : Q) :
  hexToRgb (rgbToHex x y z)
  = Some (mkRgb (clampByte (Math_round x)) (clampByte (Math_round y))
                (clampByte (Math_round z))).
Proof.
  unfold rgbToHex.
  destruct (channelHex_text x) as (a1 & a2 & -> & Ha).
  destruct (channelHex_text y) as (b1 & b2 & -> & Hb).
  destruct (channelHex_text z) as (c1 & c2 & -> & Hc).
  unfold hexToRgb; cbv beta iota delta [String.append]. now rewrite Ha, Hb, Hc.
Qed.

Lemma hexToRgb_range (hex : string) (c : Rgb) :
  hexToRgb hex = Some c ->
  0 <= r c <= 255 /\ 0 <= g c <= 255 /\ 0 <= b c <= 255.
Proof.
  unfold hexToRgb.
  set (body := match hex with String "#"%char rest => rest | _ => hex end).
  clearbody body.
  destruct body as [|c1 [|c2 [|c3 [|c4 [|c5 [|c6 [|c7 s]]]]]]]; try discriminate.
  destruct (parseInt16 c1 c2) eqn:E1; [|discriminate].
  destruct (parseInt16 c3 c4) eqn:E2; [|discriminate].
  destruct (parseInt16 c5 c6) eqn:E3; [|discriminate].
  intros [= <-]; simpl.
  apply parseInt16_range in E1, E2, E3. lia.
Qed.

Lemma Math_round_le (x y : Q) : (x <= y)%Q -> Math_round x <= Math_round y.
Proof.
  intros H. unfold Math_round. apply Qfloor_resp_le.
  now apply Qplus_le_l.
Qed.

Lemma clamp_then_round (x : Q) :
  Math_round (Qclamp x) = clampByte (Math_round x).
Proof.
  assert (R0 : Math_round 0 = 0) by reflexivity.
  assert (R255 : Math_round 255 = 255) by reflexivity.
  unfold Qclamp.
  destruct (Qlt_le_dec x 0) as [H0|H0].
  - apply Qlt_le_weak, Math_round_le in H0.
    rewrite R0 in *. unfold clampByte; lia.
  - destruct (Qlt_le_dec 255 x) as [H1|H1].
    + apply Qlt_le_weak, Math_round_le in H1.
      rewrite R255 in *. unfold clampByte; lia.
    + apply Math_round_le in H0, H1.
      rewrite R0 in H0. rewrite R255 in H1. unfold clampByte; lia.
Qed.

Lemma channelHex_Qeq (x y : Q) : (x == y)%Q -> channelHex x = channelHex y.
Proof. intros E. unfold channelHex. now rewrite (Math_round_Qeq x y E). Qed.

Lemma rgbToHex_Qeq (x1 y1 z1 x2 y2 z2 : Q) :
  (x1 == x2)%Q -> (y1 == y2)%Q -> (z1 == z2)%Q ->
  rgbToHex x1 y1 z1 = rgbToHex x2 y2 z2.
Proof.
  intros Ex Ey Ez. unfold rgbToHex.
  now rewrite (channelHex_Qeq _ _ Ex), (channelHex_Qeq _ _ Ey), (channelHex_Qeq _ _ Ez).
Qed.

Lemma adjust_default (v : Z) :
  (adjust ((100 - 100) * (3 # 2)) (100 / 100) v == inject_Z v)%Q.
Proof. unfold adjust. field. Qed.

Lemma lowerHexDigit_inv (c : ascii) :
  lowerHexDigit c = true ->
  exists d, hexVal c = Some d /\ digitChar d = c /\ 0 <= d < 16.
Proof.
  intros H. exists (if inRange 48 57 (charCode c) then charCode c - 48
                    else charCode c - 87).
  revert H. each_ascii c; vm_compute; intros H; try discriminate H;
    (split; [reflexivity|split; [reflexivity|split; [discriminate|reflexivity]]]).
Qed.

Lemma lower_channel (c1 c2 : ascii) :
  lowerHexDigit c1 = true -> lowerHexDigit c2 = true ->
  exists v, parseInt16 c1 c2 = Some v
            /\ channelHex (inject_Z v) = String c1 (String c2 EmptyString).
Proof.
  intros H1 H2.
  destruct (lowerHexDigit_inv c1 H1) as (d1 & E1 & <- & R1).
  destruct (lowerHexDigit_inv c2 H2) as (d2 & E2 & <- & R2).
  exists (d1 * 16 + d2). unfold parseInt16. rewrite E1, E2. split; [reflexivity|].
  unfold channelHex. rewrite Math_round_inject_Z, clampByte_id by lia.
  clear E1 E2 H1 H2.
  each_digit d1 R1; each_digit d2 R2; reflexivity.
Qed.


(** C4, as the code has it.  At brightness 100 and contrast 100
    [adjustColor] returns the canonical spelling of the same colour: [#]
    followed by six lower-case digits.  The channels are unchanged, and the
    returned string is the input itself whenever the input is already spelt
    that way. *)
Theorem adjustColor_default_normalises (hex : string) (c : Rgb) :
  hexToRgb hex = Some c ->
  adjustColor hex 100 100
  = rgbToHex (inject_Z (r c)) (inject_Z (g c)) (inject_Z (b c))
  /\ hexToRgb (adjustColor hex 100 100) = Some c
  /\ (canonicalHex hex = true -> adjustColor hex 100 100 = hex).
Proof.
  intros Hc.
  assert (E : adjustColor hex 100 100
              = rgbToHex (inject_Z (r c)) (inject_Z (g c)) (inject_Z (b c))).
  { unfold adjustColor. rewrite Hc. apply rgbToHex_Qeq; apply adjust_default. }
  split; [exact E|]. split.
  - rewrite E, hexToRgb_rgbToHex, !Math_round_inject_Z.
    destruct (hexToRgb_range hex c Hc) as (Hr & Hg & Hb).
    rewrite !clampByte_id by assumption. now destruct c.
  - intros Hcan. rewrite E. clear E.
    unfold canonicalHex in Hcan.
    destruct hex as [|h0 rest]; [discriminate|].
    each_ascii h0; try discriminate Hcan.
    destruct rest as [|c1 [|c2 [|c3 [|c4 [|c5 [|c6 [|c7 s]]]]]]];
      try discriminate Hcan.
    apply andb_prop in Hcan as (Hcan & L6). apply andb_prop in Hcan as (Hcan & L5).
    apply andb_prop in Hcan as (Hcan & L4). apply andb_prop in Hcan as (Hcan & L3).
    apply andb_prop in Hcan as (L1 & L2).
    destruct (lower_channel c1 c2 L1 L2) as (v1 & P1 & T1).
    destruct (lower_channel c3 c4 L3 L4) as (v2 & P2 & T2).
    destruct (lower_channel c5 c6 L5 L6) as (v3 & P3 & T3).
    unfold hexToRgb in Hc. rewrite P1, P2, P3 in Hc. injection Hc as <-.
    unfold rgbToHex; simpl r; simpl g; simpl b. rewrite T1, T2, T3. reflexivity.
Qed.

Lemma adjustColor_default_normalises_witness :
  adjustColor "#1a2b3c" 100 100 = "#1a2b3c"%string.
Proof.
  exact (proj2 (proj2 (adjustColor_default_normalises
                         "#1a2b3c" (mkRgb 26 43 60) eq_refl)) eq_refl).
Defined.

(** C4, as stated, fails: a valid colour string spelt with capitals, or
    without the [#], does not come back unchanged. *)
Lemma adjustColor_default_not_identity :
  hexToRgb "#ABCDEF" <> None /\ adjustColor "#ABCDEF" 100 100 <> "#ABCDEF"%string
  /\ hexToRgb "336699" <> None /\ adjustColor "336699" 100 100 <> "336699"%string.
Proof. repeat split; vm_compute; discriminate. Qed.

(** C5.  For all integers, also outside [[0,255]], parsing what [rgbToHex]
    wrote succeeds and gives each channel clamped to [[0,255]]. *)
Theorem hexToRgb_rgbToHex_clamped (vr vg vb : Z) :
  let clamp (n : Z) := if n <? 0 then 0 else if 255 <? n then 255 else n in
  hexToRgb (rgbToHex (inject_Z vr) (inject_Z vg) (inject_Z vb))
  = Some (mkRgb (clamp vr) (clamp vg) (clamp vb)).
Proof.
  intros clamp. rewrite hexToRgb_rgbToHex, !Math_round_inject_Z.
  assert (K : forall n, clampByte n = clamp n).
  { intros n. unfold clampByte, clamp.
    destruct (n <? 0) eqn:E0; [apply Z.ltb_lt in E0; lia|apply Z.ltb_ge in E0].
    destruct (255 <? n) eqn:E1; [apply Z.ltb_lt in E1|apply Z.ltb_ge in E1]; lia. }
  now rewrite !K.
Qed.

Lemma digitChar_lower (d : Z) : 0 <= d < 16 -> lowerHexDigit (digitChar d) = true.
Proof. intros H. each_digit d H; reflexivity. Qed.

Lemma channelHex_lower (x : Q) :
  exists c1 c2,
    channelHex x = String c1 (String c2 EmptyString)
    /\ lowerHexDigit c1 = true /\ lowerHexDigit c2 = true.
Proof.
  unfold channelHex.
  pose proof (clampByte_range (Math_round x)) as Hn.
  set (n := clampByte (Math_round x)) in *. clearbody n.
  unfold toString16. destruct (n <? 16) eqn:Hlt.
  - apply Z.ltb_lt in Hlt. exists "0"%char, (digitChar n).
    split; [reflexivity|]. split; [reflexivity|apply digitChar_lower; lia].
  - apply Z.ltb_ge in Hlt. exists (digitChar (n / 16)), (digitChar (n mod 16)).
    split; [reflexivity|].
    split; apply digitChar_lower; Z.div_mod_to_equations; lia.
Qed.

Lemma rgbToHex_is_canonical (x y z : Q) : canonicalHex (rgbToHex x y z) = true.
Proof.
  unfold rgbToHex.
  destruct (channelHex_lower x) as (a1 & a2 & -> & La1 & La2).
  destruct (channelHex_lower y) as (b1 & b2 & -> & Lb1 & Lb2).
  destruct (channelHex_lower z) as (c1 & c2 & -> & Lc1 & Lc2).
  cbv beta iota delta [String.append canonicalHex].
  now rewrite La1, La2, Lb1, Lb2, Lc1, Lc2.
Qed.

Lemma canonicalHex_parses (hex : string) :
  canonicalHex hex = true -> hexToRgb hex <> None.
Proof.
  intros Hcan. unfold canonicalHex in Hcan.
  destruct hex as [|h0 rest]; [discriminate|].
  each_ascii h0; try discriminate Hcan.
  destruct rest as [|c1 [|c2 [|c3 [|c4 [|c5 [|c6 [|c7 s]]]]]]];
    try discriminate Hcan.
  apply andb_prop in Hcan as (Hcan & L6). apply andb_prop in Hcan as (Hcan & L5).
  apply andb_prop in Hcan as (Hcan & L4). apply andb_prop in Hcan as (Hcan & L3).
  apply andb_prop in Hcan as (L1 & L2).
  destruct (lower_channel c1 c2 L1 L2) as (v1 & P1 & _).
  destruct (lower_channel c3 c4 L3 L4) as (v2 & P2 & _).
  destruct (lower_channel c5 c6 L5 L6) as (v3 & P3 & _).
  unfold hexToRgb. rewrite P1, P2, P3. discriminate.
Qed.

Lemma adjustColor_channels (hex : string) (c : Rgb) (brightness contrast : Q) :
  hexToRgb hex = Some c ->
  hexToRgb (adjustColor hex brightness contrast)
  = Some (mkRgb
            (clampByte (Math_round (specChannel brightness contrast (r c))))
            (clampByte (Math_round (specChannel brightness contrast (g c))))
            (clampByte (Math_round (specChannel brightness contrast (b c))))).
Proof.
  intros Hc. unfold adjustColor. rewrite Hc. apply hexToRgb_rgbToHex.
Qed.

Lemma luminance_of_channels (hex : string) (c : Rgb) :
  hexToRgb hex = Some c ->
  getHexLuminance hex
  = ((2126 # 10000) * inject_Z (r c) + (7152 # 10000) * inject_Z (g c)
     + (722 # 10000) * inject_Z (b c))%Q.
Proof. intros Hc. unfold getHexLuminance. now rewrite Hc. Qed.

Lemma isDark_spec (hex : string) :
  isDark hex = true <-> (getHexLuminance hex < 128)%Q.
Proof.
  unfold isDark. destruct (Qlt_le_dec (getHexLuminance hex) 128) as [H|H].
  - tauto.
  - split; [discriminate|]. intros H'. exfalso. exact (Qlt_not_le _ _ H' H).
Qed.

Lemma clampByte_mono (m n : Z) : m <= n -> clampByte m <= clampByte n.
Proof. unfold clampByte; lia. Qed.

(** X6.  Whatever numbers it is given (fractional, negative, above 255),
    [rgbToHex] writes a well-formed colour: [#] and six lower-case hex
    digits, seven characters in all, which [hexToRgb] accepts. *)
Theorem rgbToHex_well_formed (x y z : Q) :
  canonicalHex (rgbToHex x y z) = true
  /\ String.length (rgbToHex x y z) = 7%nat
  /\ hexToRgb (rgbToHex x y z) <> None.
Proof.
  split; [apply rgbToHex_is_canonical|]. split.
  - unfold rgbToHex.
    destruct (channelHex_lower x) as (a1 & a2 & -> & _).
    destruct (channelHex_lower y) as (b1 & b2 & -> & _).
    destruct (channelHex_lower z) as (c1 & c2 & -> & _).
    reflexivity.
  - rewrite hexToRgb_rgbToHex. discriminate.
Qed.

(** X7.  [adjustColor] never fails: a string that is not a colour comes back
    unchanged, and a colour comes back as a well-formed colour.  So the
    result parses exactly when the input did. *)
Theorem adjustColor_preserves_validity (hex : string) (brightness contrast : Q) :
  (hexToRgb hex = None -> adjustColor hex brightness contrast = hex)
  /\ (hexToRgb hex <> None ->
      canonicalHex (adjustColor hex brightness contrast) = true)
  /\ (hexToRgb (adjustColor hex brightness contrast) = None
      <-> hexToRgb hex = None).
Proof.
  unfold adjustColor.
  destruct (hexToRgb hex) as [c|] eqn:Hc.
  - split; [discriminate|]. split; [intros _; apply rgbToHex_is_canonical|].
    rewrite hexToRgb_rgbToHex. split; discriminate.
  - split; [reflexivity|]. split; [congruence|]. now rewrite Hc.
Qed.

Lemma adjustColor_preserves_validity_witness :
  adjustColor "#12" 130 70 = "#12"%string
  /\ canonicalHex (adjustColor "A0B1C2" 130 70) = true.
Proof.
  split.
  - apply (proj1 (adjustColor_preserves_validity "#12" 130 70)). reflexivity.
  - apply (proj1 (proj2 (adjustColor_preserves_validity "A0B1C2" 130 70))).
    discriminate.
Defined.

(** X8.  The luminance of a colour lies between 0 and 255 and does not
    decrease when a channel grows: a colour with channels at least those of
    another is at least as bright. *)
Theorem luminance_bounded_monotone (h1 h2 : string) (c1 c2 : Rgb) :
  hexToRgb h1 = Some c1 -> hexToRgb h2 = Some c2 ->
  (0 <= getHexLuminance h1 <= 255)%Q
  /\ (r c1 <= r c2 -> g c1 <= g c2 -> b c1 <= b c2 ->
      (getHexLuminance h1 <= getHexLuminance h2)%Q).
Proof.
  intros H1 H2.
  rewrite (luminance_of_channels h1 c1 H1), (luminance_of_channels h2 c2 H2).
  destruct (hexToRgb_range h1 c1 H1) as ((Hr0 & Hr1) & (Hg0 & Hg1) & (Hb0 & Hb1)).
  rewrite Zle_Qle in Hr0, Hr1, Hg0, Hg1, Hb0, Hb1.
  change (inject_Z 0) with 0%Q in *. change (inject_Z 255) with 255%Q in *.
  split; [split; lra|].
  intros Hr Hg Hb. rewrite Zle_Qle in Hr, Hg, Hb. lra.
Qed.

Lemma luminance_bounded_monotone_witness :
  (getHexLuminance "#102030" <= getHexLuminance "#405060")%Q.
Proof.
  apply (proj2 (luminance_bounded_monotone "#102030" "#405060"
                  (mkRgb 16 32 48) (mkRgb 64 80 96) eq_refl eq_refl));
    discriminate.
Defined.

(** X9.  With contrast between 0 and 100, full brightness (200) turns every
    colour into a light one and zero brightness into a dark one, as the
    luminance test classifies them. *)
Theorem brightness_extremes (hex : string) (c : Rgb) (contrast : Q) :
  hexToRgb hex = Some c -> (0 <= contrast <= 100)%Q ->
  isDark (adjustColor hex 200 contrast) = false
  /\ isDark (adjustColor hex 0 contrast) = true.
Proof.
  intros Hc [Hc0 Hc1].
  destruct (hexToRgb_range hex c Hc) as ((Hr0 & Hr1) & (Hg0 & Hg1) & (Hb0 & Hb1)).
  assert (Hhi : forall v, 0 <= v <= 255 ->
            150 <= clampByte (Math_round (specChannel 200 contrast v)) <= 255).
  { intros v [Hv0 Hv1]. split; [|apply clampByte_range].
    change 150 with (clampByte (Math_round 150)).
    apply clampByte_mono, Math_round_le. unfold specChannel.
    rewrite Zle_Qle in Hv0, Hv1.
    change (inject_Z 0) with 0%Q in *. change (inject_Z 255) with 255%Q in *.
    set (q := inject_Z v) in *. clearbody q.
    assert (0 <= contrast / 100 <= 1)%Q as [Hf0 Hf1].
    { split; [apply Qle_shift_div_l|apply Qle_shift_div_r]; lra. }
    set (f := (contrast / 100)%Q) in *. clearbody f. nra. }
  assert (Hlo : forall v, 0 <= v <= 255 ->
            0 <= clampByte (Math_round (specChannel 0 contrast v)) <= 105).
  { intros v [Hv0 Hv1]. split; [apply clampByte_range|].
    change 105 with (clampByte (Math_round 105)).
    apply clampByte_mono, Math_round_le. unfold specChannel.
    rewrite Zle_Qle in Hv0, Hv1.
    change (inject_Z 0) with 0%Q in *. change (inject_Z 255) with 255%Q in *.
    set (q := inject_Z v) in *. clearbody q.
    assert (0 <= contrast / 100 <= 1)%Q as [Hf0 Hf1].
    { split; [apply Qle_shift_div_l|apply Qle_shift_div_r]; lra. }
    set (f := (contrast / 100)%Q) in *. clearbody f. nra. }
  split.
  - destruct (isDark (adjustColor hex 200 contrast)) eqn:E; [|reflexivity].
    apply isDark_spec in E.
    rewrite (luminance_of_channels _ _ (adjustColor_channels hex c 200 contrast Hc))
      in E.
    cbn [r g b] in E.
    destruct (Hhi (r c) ltac:(lia)) as [A _].
    destruct (Hhi (g c) ltac:(lia)) as [B _].
    destruct (Hhi (b c) ltac:(lia)) as [C _].
    rewrite Zle_Qle in A, B, C. change (inject_Z 150) with 150%Q in *. lra.
  - apply isDark_spec.
    rewrite (luminance_of_channels _ _ (adjustColor_channels hex c 0 contrast Hc)).
    cbn [r g b].
    destruct (Hlo (r c) ltac:(lia)) as [_ A].
    destruct (Hlo (g c) ltac:(lia)) as [_ B].
    destruct (Hlo (b c) ltac:(lia)) as [_ C].
    rewrite Zle_Qle in A, B, C. change (inject_Z 105) with 105%Q in *. lra.
Qed.

Lemma brightness_extremes_witness :
  isDark (adjustColor "#000000" 200 80) = false
  /\ isDark (adjustColor "#ffffff" 0 80) = true.
Proof.
  split.
  - apply (proj1 (brightness_extremes "#000000" (mkRgb 0 0 0) 80 eq_refl
                    ltac:(split; discriminate))).
  - apply (proj2 (brightness_extremes "#ffffff" (mkRgb 255 255 255) 80 eq_refl
                    ltac:(split; discriminate))).
Defined.

(** X10.  At contrast 0 the colour is lost: every valid colour is mapped to
    the same grey, whose channels are [128 + (brightness - 100) * 1.5],
    clamped and rounded. *)
Theorem contrast_zero_is_grey (h1 h2 : string) (c1 c2 : Rgb) (brightness : Q) :
  hexToRgb h1 = Some c1 -> hexToRgb h2 = Some c2 ->
  adjustColor h1 brightness 0 = adjustColor h2 brightness 0
  /\ adjustColor h1 brightness 0
     = rgbToHex (128 + (brightness - 100) * (3 # 2))
                (128 + (brightness - 100) * (3 # 2))
                (128 + (brightness - 100) * (3 # 2)).
Proof.
  intros H1 H2.
  assert (E : forall h c, hexToRgb h = Some c ->
            adjustColor h brightness 0
            = rgbToHex (128 + (brightness - 100) * (3 # 2))
                       (128 + (brightness - 100) * (3 # 2))
                       (128 + (brightness - 100) * (3 # 2))).
  { intros h c Hc. unfold adjustColor. rewrite Hc.
    apply rgbToHex_Qeq; unfold adjust; field. }
  split; [|exact (E h1 c1 H1)].
  now rewrite (E h1 c1 H1), (E h2 c2 H2).
Qed.

Lemma contrast_zero_is_grey_witness :
  adjustColor "#ff0000" 100 0 = adjustColor "#0000ff" 100 0.
Proof.
  exact (proj1 (contrast_zero_is_grey "#ff0000" "#0000ff"
                  (mkRgb 255 0 0) (mkRgb 0 0 255) 100 eq_refl eq_refl)).
Defined.

(** X11.  More brightness never darkens: with the contrast fixed, raising
    the brightness leaves every channel of the result at least as large. *)
Theorem adjustColor_monotone_in_brightness
  (hex : string) (c : Rgb) (b1 b2 contrast : Q) :
  hexToRgb hex = Some c -> (b1 <= b2)%Q ->
  exists c1 c2,
    hexToRgb (adjustColor hex b1 contrast) = Some c1
    /\ hexToRgb (adjustColor hex b2 contrast) = Some c2
    /\ r c1 <= r c2 /\ g c1 <= g c2 /\ b c1 <= b c2
    /\ (getHexLuminance (adjustColor hex b1 contrast)
        <= getHexLuminance (adjustColor hex b2 contrast))%Q.
Proof.
  intros Hc Hb.
  pose proof (adjustColor_channels hex c b1 contrast Hc) as E1.
  pose proof (adjustColor_channels hex c b2 contrast Hc) as E2.
  assert (M : forall v, clampByte (Math_round (specChannel b1 contrast v))
                        <= clampByte (Math_round (specChannel b2 contrast v))).
  { intros v. apply clampByte_mono, Math_round_le. unfold specChannel. lra. }
  eexists _, _. split; [exact E1|]. split; [exact E2|]. cbn [r g b].
  split; [apply M|]. split; [apply M|]. split; [apply M|].
  rewrite (luminance_of_channels _ _ E1), (luminance_of_channels _ _ E2).
  cbn [r g b].
  pose proof (M (r c)) as A. pose proof (M (g c)) as B. pose proof (M (b c)) as C.
  rewrite Zle_Qle in A, B, C. lra.
Qed.

Lemma adjustColor_monotone_in_brightness_witness :
  exists c1 c2,
    hexToRgb (adjustColor "#336699" 80 120) = Some c1
    /\ hexToRgb (adjustColor "#336699" 140 120) = Some c2
    /\ r c1 <= r c2 /\ g c1 <= g c2 /\ b c1 <= b c2
    /\ (getHexLuminance (adjustColor "#336699" 80 120)
        <= getHexLuminance (adjustColor "#336699" 140 120))%Q.
Proof.
  apply (adjustColor_monotone_in_brightness "#336699" (mkRgb 51 102 153)
           80 140 120 eq_refl).
  discriminate.
Defined.

Lemma strip_other (h0 : ascii) (rest : string) :
  h0 <> "#"%char ->
  match String h0 rest with
  | String "#"%char tail => tail
  | _ => String h0 rest
  end = String h0 rest.
Proof. intros Hne. each_ascii h0; try reflexivity. congruence. Qed.


Lemma isHexDigit_hexVal (c : ascii) :
  isHexDigit c = true <-> hexVal c <> None.
Proof.
  each_ascii c; vm_compute; split; intros H; congruence.
Qed.

Lemma parseInt16_digits (c1 c2 : ascii) :
  parseInt16 c1 c2 <> None <-> isHexDigit c1 = true /\ isHexDigit c2 = true.
Proof.
  rewrite !isHexDigit_hexVal. unfold parseInt16.
  destruct (hexVal c1), (hexVal c2); split; intros H;
    try (split; congruence); try congruence; destruct H; congruence.
Qed.

Lemma sixHexDigits_parse (s : string) :
  sixHexDigits s = true <->
  exists c1 c2 c3 c4 c5 c6 vr vg vb,
    s = String c1 (String c2 (String c3 (String c4 (String c5
          (String c6 EmptyString)))))
    /\ parseInt16 c1 c2 = Some vr /\ parseInt16 c3 c4 = Some vg
    /\ parseInt16 c5 c6 = Some vb.
Proof.
  split.
  - intros H.
    destruct s as [|c1 [|c2 [|c3 [|c4 [|c5 [|c6 [|c7 s]]]]]]];
      try discriminate H.
    cbn [sixHexDigits forallb] in H.
    apply andb_prop in H as (H1 & H). apply andb_prop in H as (H2 & H).
    apply andb_prop in H as (H3 & H). apply andb_prop in H as (H4 & H).
    apply andb_prop in H as (H5 & H). apply andb_prop in H as (H6 & _).
    pose proof (proj2 (parseInt16_digits c1 c2) (conj H1 H2)) as P1.
    pose proof (proj2 (parseInt16_digits c3 c4) (conj H3 H4)) as P2.
    pose proof (proj2 (parseInt16_digits c5 c6) (conj H5 H6)) as P3.
    destruct (parseInt16 c1 c2) as [vr|] eqn:E1; [|congruence].
    destruct (parseInt16 c3 c4) as [vg|] eqn:E2; [|congruence].
    destruct (parseInt16 c5 c6) as [vb|] eqn:E3; [|congruence].
    exists c1, c2, c3, c4, c5, c6, vr, vg, vb. repeat split; assumption.
  - intros (c1 & c2 & c3 & c4 & c5 & c6 & vr & vg & vb & -> & P1 & P2 & P3).
    cbn [sixHexDigits forallb].
    destruct (proj1 (parseInt16_digits c1 c2) ltac:(congruence)) as [-> ->].
    destruct (proj1 (parseInt16_digits c3 c4) ltac:(congruence)) as [-> ->].
    destruct (proj1 (parseInt16_digits c5 c6) ltac:(congruence)) as [-> ->].
    reflexivity.
Qed.

Lemma hexToRgb_body (h0 : ascii) (rest : string) :
  h0 <> "#"%char ->
  hexToRgb (String h0 rest)
  = match String h0 rest with
    | String c1 (String c2 (String c3 (String c4 (String c5
        (String c6 EmptyString))))) =>
        match parseInt16 c1 c2, parseInt16 c3 c4, parseInt16 c5 c6 with
        | Some vr, Some vg, Some vb => Some (mkRgb vr vg vb)
        | _, _, _ => None
        end
    | _ => None
    end.
Proof.
  intros Hne. unfold hexToRgb; cbv zeta. now rewrite strip_other.
Qed.

Lemma sixHexDigits_accepted (s : string) :
  sixHexDigits s = true ->
  exists c, hexToRgb s = Some c /\ hexToRgb (String "#"%char s) = Some c.
Proof.
  intros H.
  apply sixHexDigits_parse in H
    as (c1 & c2 & c3 & c4 & c5 & c6 & vr & vg & vb & -> & P1 & P2 & P3).
  exists (mkRgb vr vg vb).
  assert (Hne : c1 <> "#"%char).
  { intros ->. discriminate P1. }
  split.
  - rewrite hexToRgb_body by assumption. now rewrite P1, P2, P3.
  - change (hexToRgb (String "#"%char (String c1 (String c2 (String c3
              (String c4 (String c5 (String c6 EmptyString))))))))
      with (match parseInt16 c1 c2, parseInt16 c3 c4, parseInt16 c5 c6 with
            | Some vr, Some vg, Some vb => Some (mkRgb vr vg vb)
            | _, _, _ => None
            end).
    now rewrite P1, P2, P3.
Qed.

Lemma accepted_sixHexDigits (hex : string) (c : Rgb) :
  hexToRgb hex = Some c ->
  (sixHexDigits hex = true /\ String.length hex = 6%nat
   /\ hexToRgb (String "#"%char hex) = Some c)
  \/ (exists rest, hex = String "#"%char rest /\ sixHexDigits rest = true
                   /\ String.length hex = 7%nat /\ hexToRgb rest = Some c).
Proof.
  intros H. destruct hex as [|h0 rest]; [discriminate|].
  destruct (ascii_dec h0 "#"%char) as [->|Hne].
  - right. exists rest. split; [reflexivity|].
    change (hexToRgb (String "#"%char rest))
      with (match rest with
            | String c1 (String c2 (String c3 (String c4 (String c5
                (String c6 EmptyString))))) =>
                match parseInt16 c1 c2, parseInt16 c3 c4, parseInt16 c5 c6 with
                | Some vr, Some vg, Some vb => Some (mkRgb vr vg vb)
                | _, _, _ => None
                end
            | _ => None
            end) in H.
    destruct rest as [|c1 [|c2 [|c3 [|c4 [|c5 [|c6 [|c7 s]]]]]]];
      try discriminate H.
    destruct (parseInt16 c1 c2) as [vr|] eqn:P1; [|discriminate H].
    destruct (parseInt16 c3 c4) as [vg|] eqn:P2; [|discriminate H].
    destruct (parseInt16 c5 c6) as [vb|] eqn:P3; [|discriminate H].
    assert (S6 : sixHexDigits (String c1 (String c2 (String c3 (String c4
                   (String c5 (String c6 EmptyString)))))) = true).
    { apply sixHexDigits_parse. repeat eexists; eassumption. }
    split; [exact S6|]. split; [reflexivity|].
    destruct (sixHexDigits_accepted _ S6) as (c' & E1 & E2).
    rewrite E1. rewrite <- H.
    assert (Hne : c1 <> "#"%char) by (intros ->; discriminate P1).
    rewrite hexToRgb_body in E1 by assumption.
    rewrite P1, P2, P3 in E1. exact (eq_sym E1).
  - left. rewrite hexToRgb_body in H by assumption.
    destruct rest as [|c2 [|c3 [|c4 [|c5 [|c6 [|c7 s]]]]]];
      try discriminate H.
    destruct (parseInt16 h0 c2) as [vr|] eqn:P1; [|discriminate H].
    destruct (parseInt16 c3 c4) as [vg|] eqn:P2; [|discriminate H].
    destruct (parseInt16 c5 c6) as [vb|] eqn:P3; [|discriminate H].
    assert (S6 : sixHexDigits (String h0 (String c2 (String c3 (String c4
                   (String c5 (String c6 EmptyString)))))) = true).
    { apply sixHexDigits_parse. repeat eexists; eassumption. }
    split; [exact S6|]. split; [reflexivity|].
    destruct (sixHexDigits_accepted _ S6) as (c' & E1 & E2).
    rewrite E2. rewrite <- H. rewrite hexToRgb_body in E1 by assumption.
    rewrite P1, P2, P3 in E1. exact (eq_sym E1).
Qed.

(** X12.  [hexToRgb] accepts exactly two spellings: a string is accepted if
    and only if it is six hex digits (of either case), or [#] followed by
    six hex digits.  Both spellings of the same digits give the same
    channels; anything shorter or longer (the three-digit shorthand, eight
    digits with alpha) is rejected. *)
Theorem hexToRgb_six_digits_hash_optional (hex : string) :
  (hexToRgb hex <> None
   <-> sixHexDigits hex = true
       \/ exists rest, hex = String "#"%char rest /\ sixHexDigits rest = true)
  /\ (sixHexDigits hex = true ->
      hexToRgb hex <> None /\ hexToRgb (String "#"%char hex) = hexToRgb hex)
  /\ (forall c, hexToRgb hex = Some c ->
        (String.length hex = 6%nat /\ hexToRgb (String "#"%char hex) = Some c)
        \/ (String.length hex = 7%nat
            /\ exists rest, hex = String "#"%char rest
                            /\ hexToRgb rest = Some c)).
Proof.
  split; [split|split].
  - intros H. destruct (hexToRgb hex) as [c|] eqn:E; [|congruence].
    destruct (accepted_sixHexDigits hex c E) as [(S6 & _)|(rest & -> & S6 & _)];
      [now left|right; eauto].
  - intros [S6|(rest & -> & S6)].
    + destruct (sixHexDigits_accepted _ S6) as (c & E & _). congruence.
    + destruct (sixHexDigits_accepted _ S6) as (c & _ & E). congruence.
  - intros S6. destruct (sixHexDigits_accepted _ S6) as (c & E1 & E2).
    split; congruence.
  - intros c E.
    destruct (accepted_sixHexDigits hex c E)
      as [(_ & L & E')|(rest & -> & _ & L & E')]; [left|right]; eauto.
Qed.

Lemma hexToRgb_six_digits_hash_optional_witness :
  hexToRgb "C0ffEE" <> None
  /\ hexToRgb (String "#"%char "C0ffEE") = hexToRgb "C0ffEE".
Proof.
  exact (proj1 (proj2 (hexToRgb_six_digits_hash_optional "C0ffEE")) eq_refl).
Defined.

End ColorFacts.

(** ** Properties of theme extraction *)

Section ThemeFacts.

Local Open Scope nat_scope.

Lemma accentStep_length (data : list Z) (l : list string) (i : nat) :
  length l <= length (accentStep data l i).
Proof.
  unfold accentStep. case_bool_decide; [lia|].
  rewrite List.length_app. simpl. lia.
Qed.

Lemma accentFold_length (data : list Z) (offsets : list nat) (l : list string) :
  length l <= length (foldl (accentStep data) l offsets).
Proof.
  revert l. induction offsets as [|i offsets IH]; intros l; simpl; [lia|].
  etransitivity; [apply (accentStep_length data l i)|apply IH].
Qed.

(** The second loop looks at pixel 0 first, so it finds a colour on any
    image that has a pixel. *)
Lemma accentLoop_nonempty (data : list Z) :
  0 < length data -> 1 <= length (accentLoop data).
Proof.
  intros Hlen. unfold accentLoop, strideIndices.
  destruct ((length data + 100 - 1) / 100) as [|q] eqn:Hq.
  - apply Nat.div_small_iff in Hq; lia.
  - simpl. etransitivity; [|apply accentFold_length]. simpl. lia.
Qed.

Lemma finishTheme_tracks (bgHex : string) (potentialColors : list string)
  (contrast : Q) :
  1 <= length potentialColors ->
  2 <= length (tracks (finishTheme bgHex potentialColors contrast)).
Proof.
  intros Hlen. unfold finishTheme; simpl.
  set (accents := take 5 _).
  assert (1 <= length accents).
  { unfold accents. rewrite length_take, length_fmap. lia. }
  destruct (length accents <? 2) eqn:E.
  - rewrite List.length_app. simpl. lia.
  - apply Nat.ltb_ge in E. exact E.
Qed.

End ThemeFacts.


(** ** Properties of the renderers *)

Section RenderFacts.

Local Open Scope Q_scope.

Lemma Qltb_lt (x y : Q) : Qltb x y = true <-> x < y.
Proof.
  unfold Qltb. rewrite negb_true_iff.
  destruct (Qle_bool y x) eqn:E.
  - apply Qle_bool_iff in E. split; [discriminate|].
    intros H. exfalso. exact (Qlt_not_le _ _ H E).
  - split; [intros _|reflexivity].
    apply Qnot_le_lt. intros H. apply Qle_bool_iff in H. congruence.
Qed.

Lemma isActive_spec (currentTime : Q) (n : NoteEvent) :
  isActive currentTime n = true
  <-> startTime n <= currentTime /\ currentTime <= startTime n + duration n.
Proof.
  unfold isActive. rewrite andb_true_iff, !Qle_bool_iff. reflexivity.
Qed.

Lemma Qmax_ge_r (x y : Q) : y <= Qmax x y.
Proof.
  unfold Qmax. destruct (Qle_bool y x) eqn:E.
  - now apply Qle_bool_iff.
  - apply Qle_refl.
Qed.

Lemma noteX_at_playhead (currentTime width : Q) (n : NoteEvent) :
  relativeTime currentTime n == 0 -> noteX currentTime width n == width * (1 # 4).
Proof. intros H. unfold noteX. rewrite H. unfold PLAYHEAD_X. ring. Qed.

(** A note under the playhead is on screen on any canvas. *)
Lemma onScreen_at_playhead (currentTime width : Q) (n : NoteEvent) :
  relativeTime currentTime n == 0 -> 0 <= width ->
  onScreen currentTime width n = true.
Proof.
  intros H Hw. unfold onScreen. apply andb_true_iff.
  pose proof (noteX_at_playhead currentTime width n H) as Hx.
  pose proof (Qmax_ge_r (duration n * PX_PER_SEC width) 3) as Hmax.
  fold (noteW width n) in Hmax.
  split; apply Qltb_lt; rewrite Hx; lra.
Qed.

Lemma glow_in_rect (hasRoundRect : bool) (x y w h radius : Q) :
  ~ In (SetShadowBlur 15) (rect hasRoundRect x y w h radius).
Proof.
  unfold rect. destruct hasRoundRect; simpl; intuition discriminate.
Qed.

Lemma glow_not_inactive (currentTime : Q) (backgroundColor : string)
  (width height : Q) (hasRoundRect : bool) (n : NoteEvent) (fillStyle : Style) :
  ~ In (SetShadowBlur 15)
       (inactiveEffects currentTime backgroundColor width height hasRoundRect
                        n fillStyle).
Proof.
  unfold inactiveEffects. rewrite !in_app_iff.
  intros [H|[H|H]].
  - simpl in H. intuition discriminate.
  - exact (glow_in_rect _ _ _ _ _ _ H).
  - simpl in H. intuition discriminate.
Qed.

End RenderFacts.




(** C8.  Without an analyser, or when not playing, [drawOscilloscope] adds
    to whatever was on the canvas the background fill and then exactly one
    flat line from [(0, height/2)] to [(width, height/2)]; what it adds does
    not depend on the earlier drawing, and the analyser is not read. *)
Theorem oscilloscope_idle_flat_line (color backgroundColor : string)
  (width height : Q) (ctx : Canvas) (analyser : option AnalyserNode)
  (isPlaying : bool) :
  analyser = None \/ isPlaying = false ->
  drawOscilloscope color backgroundColor width height ctx analyser isPlaying
  = ctx ++ [Save; SetFillStyle (Some backgroundColor); FillRect 0 0 width height;
            SetStrokeStyle (Some color); SetLineWidth 2; BeginPath;
            MoveTo 0 (height / 2); LineTo width (height / 2); Stroke; Restore]
  /\ forall bufferLength,
       ~ In (GetByteTimeDomainData bufferLength)
            (drop (length ctx)
               (drawOscilloscope color backgroundColor width height ctx
                                 analyser isPlaying)).
Proof.
  intros Hidle.
  assert (E : drawOscilloscope color backgroundColor width height ctx analyser
                               isPlaying
              = ctx ++ [Save; SetFillStyle (Some backgroundColor);
                        FillRect 0 0 width height;
                        SetStrokeStyle (Some color); SetLineWidth 2; BeginPath;
                        MoveTo 0 (height / 2); LineTo width (height / 2);
                        Stroke; Restore]).
  { unfold drawOscilloscope, idleEffects.
    destruct Hidle as [-> | ->]; [|destruct analyser];
      now rewrite <- List.app_assoc. }
  split; [exact E|].
  intros bufferLength. rewrite E, drop_app_length. simpl. intuition discriminate.
Qed.

Lemma oscilloscope_idle_flat_line_witness :
  drawOscilloscope "#1a1a1a" "#fffbe9" 800 200
    [LineTo 10 20; Stroke] (Some (mkAnalyser 4 [128; 255; 0; 128])) false
  = [LineTo 10 20; Stroke]
    ++ [Save; SetFillStyle (Some "#fffbe9"%string); FillRect 0 0 800 200;
        SetStrokeStyle (Some "#1a1a1a"%string); SetLineWidth 2; BeginPath;
        MoveTo 0 (200 / 2); LineTo 800 (200 / 2); Stroke; Restore].
Proof.
  apply (proj1 (oscilloscope_idle_flat_line "#1a1a1a" "#fffbe9" 800 200
                  [LineTo 10 20; Stroke]
                  (Some (mkAnalyser 4 [128; 255; 0; 128])) false
                  (or_intror eq_refl))).
Defined.

(** C9.  For a note whose track and channel are non-negative integers, or
    absent, and a palette that is not empty, the colour index is
    [(track + channel) mod palette.length], lies within the palette however
    large track and channel are, and reads a colour there. *)
Theorem colorIdx_in_bounds (n : NoteEvent) (palette : list string) :
  palette <> [] ->
  (forall t, track n = Some t -> 0 <= t) ->
  (forall c, channel n = Some c -> 0 <= c) ->
  exists i color,
    colorIdx n palette = Some i
    /\ i = (orZero (track n) + orZero (channel n)) mod Z.of_nat (length palette)
    /\ 0 <= i < Z.of_nat (length palette)
    /\ paletteAt palette (colorIdx n palette) = Some color.
Proof.
  intros Hne Ht Hc.
  assert (Hd : 0 <= discriminator n).
  { unfold discriminator, orZero.
    destruct (track n) as [t|]; destruct (channel n) as [c|]; simpl;
      try specialize (Ht _ eq_refl); try specialize (Hc _ eq_refl); lia. }
  assert (Hlen : 0 < Z.of_nat (length palette)).
  { destruct palette; [congruence|simpl; lia]. }
  set (i := Z.rem (discriminator n) (Z.of_nat (length palette))).
  assert (Hi : i = discriminator n mod Z.of_nat (length palette)).
  { unfold i. apply Z.rem_mod_nonneg; lia. }
  assert (Hr : 0 <= i < Z.of_nat (length palette)).
  { rewrite Hi. apply Z.mod_pos_bound. lia. }
  assert (Hidx : colorIdx n palette = Some i).
  { unfold colorIdx. destruct palette; [congruence|reflexivity]. }
  destruct (lookup_lt_is_Some_2 palette (Z.to_nat i)) as [color Hcolor]; [lia|].
  exists i, color. split; [exact Hidx|]. split; [exact Hi|]. split; [exact Hr|].
  rewrite Hidx. unfold paletteAt.
  destruct (i <? 0) eqn:E; [apply Z.ltb_lt in E; lia|exact Hcolor].
Qed.

Lemma colorIdx_in_bounds_witness :
  exists i color,
    colorIdx (mkNote 60 100 0 1 (Some 1000003) None)
             ["#1a1a1a"; "#8c8c8c"; "#4a4a4a"; "#b0b0b0"]%string = Some i
    /\ i = (orZero (Some 1000003) + orZero None) mod 4
    /\ 0 <= i < 4
    /\ paletteAt ["#1a1a1a"; "#8c8c8c"; "#4a4a4a"; "#b0b0b0"]%string
                 (colorIdx (mkNote 60 100 0 1 (Some 1000003) None)
                           ["#1a1a1a"; "#8c8c8c"; "#4a4a4a"; "#b0b0b0"]%string)
       = Some color.
Proof.
  apply (colorIdx_in_bounds (mkNote 60 100 0 1 (Some 1000003) None)
           ["#1a1a1a"; "#8c8c8c"; "#4a4a4a"; "#b0b0b0"]%string).
  - discriminate.
  - simpl. intros t [= <-]. lia.
  - simpl. intros c H. discriminate H.
Defined.

(** C10.  A colour string that [hexToRgb] rejects has luminance 0, so it
    counts as dark wherever the luminance is tested: the piano roll draws
    its light playhead, the application shell takes the dark look, and the
    theme fallback is white.  No caller fails on it. *)
Theorem malformed_background_is_dark (hex : string) :
  hexToRgb hex = None ->
  getHexLuminance hex = 0%Q
  /\ isDark hex = true
  /\ (forall currentTime palette width height hasRoundRect ctx notes,
        isDarkBg hex = true
        /\ In (SetStrokeStyle (Some "rgba(255,255,255,0.4)"%string))
              (drawPianoRoll currentTime palette hex width height hasRoundRect
                             ctx notes))
  /\ (forall isLandscape, isDarkUI isLandscape hex = true)
  /\ (forall potentialColors contrast,
        (length potentialColors < 2)%nat ->
        last (tracks (finishTheme hex potentialColors contrast))
        = Some "#ffffff"%string).
Proof.
  intros Hbad.
  assert (Hlum : getHexLuminance hex = 0%Q).
  { unfold getHexLuminance. now rewrite Hbad. }
  assert (Hdark : isDark hex = true).
  { unfold isDark. rewrite Hlum. reflexivity. }
  split; [exact Hlum|]. split; [exact Hdark|]. split; [|split].
  - intros currentTime palette width height hasRoundRect ctx notes.
    split; [exact Hdark|].
    unfold drawPianoRoll, playheadEffects, isDarkBg. rewrite Hdark.
    rewrite !in_app_iff. right. right. left. simpl. tauto.
  - intros [|]; unfold isDarkUI; [reflexivity|exact Hdark].
  - intros potentialColors contrast Hlen.
    unfold finishTheme; simpl. rewrite Hdark.
    set (accents := take 5 _).
    assert (Ha : (length accents < 2)%nat).
    { unfold accents. rewrite length_take, length_fmap. lia. }
    apply Nat.ltb_lt in Ha. rewrite Ha. apply last_snoc.
Qed.

Lemma malformed_background_is_dark_witness :
  getHexLuminance "#fff" = 0%Q /\ isDark "#fff" = true.
Proof.
  split.
  - exact (proj1 (malformed_background_is_dark "#fff" eq_refl)).
  - exact (proj1 (proj2 (malformed_background_is_dark "#fff" eq_refl))).
Defined.

(** ** Properties of the note sources *)

Section MidiFacts.

Local Open Scope Q_scope.

Lemma insertByStart_perm (n : NoteEvent) (l : list NoteEvent) :
  Permutation (insertByStart n l) (n :: l).
Proof.
  induction l as [|m l IH]; simpl; [reflexivity|].
  destruct (Qle_bool (startTime n) (startTime m)); [reflexivity|].
  rewrite IH. apply perm_swap.
Qed.

Lemma sortByStart_perm (l : list NoteEvent) : Permutation (sortByStart l) l.
Proof.
  induction l as [|n l IH]; simpl; [reflexivity|].
  fold (sortByStart l). rewrite insertByStart_perm. now constructor.
Qed.

Lemma insertByStart_sorted (n : NoteEvent) (l : list NoteEvent) :
  StronglySorted startsBefore l -> StronglySorted startsBefore (insertByStart n l).
Proof.
  induction 1 as [|m l Hl IH Hm]; simpl.
  - constructor; constructor.
  - destruct (Qle_bool (startTime n) (startTime m)) eqn:E.
    + apply Qle_bool_iff in E.
      constructor; [now constructor|].
      constructor; [exact E|].
      eapply Forall_impl; [exact Hm|].
      intros x Hx. unfold startsBefore in *. now apply Qle_trans with (startTime m).
    + assert (Hmn : startTime m <= startTime n).
      { apply Qlt_le_weak, Qnot_le_lt. intros H.
        apply Qle_bool_iff in H. congruence. }
      constructor; [exact IH|].
      rewrite insertByStart_perm. now constructor.
Qed.

Lemma sortByStart_sorted (l : list NoteEvent) :
  StronglySorted startsBefore (sortByStart l).
Proof.
  induction l as [|n l IH]; simpl; [constructor|].
  now apply insertByStart_sorted.
Qed.

Lemma insertByStart_filter (t : Q) (n : NoteEvent) (l : list NoteEvent) :
  List.filter (fun x => Qeq_bool (startTime x) t) (insertByStart n l)
  = List.filter (fun x => Qeq_bool (startTime x) t) (n :: l).
Proof.
  induction l as [|m l IH]; [reflexivity|].
  cbn [insertByStart].
  destruct (Qle_bool (startTime n) (startTime m)) eqn:E; [reflexivity|].
  cbn [List.filter] in *. rewrite IH.
  destruct (Qeq_bool (startTime n) t) eqn:En;
    destruct (Qeq_bool (startTime m) t) eqn:Em; try reflexivity.
  exfalso. apply Qeq_bool_iff in En, Em.
  assert (H : startTime n <= startTime m) by (rewrite En, Em; apply Qle_refl).
  apply Qle_bool_iff in H. congruence.
Qed.

Lemma collectNotes_length (i : nat) (tracks : list MidiTrack) :
  length (collectNotes i tracks)
  = sum_list (length <$> (trackNotes <$> tracks)).
Proof.
  revert i. induction tracks as [|tr tracks IH]; intros i; simpl; [reflexivity|].
  rewrite List.length_app, length_fmap, IH. reflexivity.
Qed.

Lemma collectNotes_origin (i : nat) (tracks : list MidiTrack) (n : NoteEvent) :
  n ∈ collectNotes i tracks ->
  exists j tr mn, tracks !! j = Some tr /\ mn ∈ trackNotes tr
                  /\ n = noteEventOf (i + j) tr mn.
Proof.
  revert i. induction tracks as [|tr tracks IH]; intros i; simpl.
  - intros H. inversion H.
  - rewrite elem_of_app. intros [H|H].
    + apply list_elem_of_fmap in H as (mn & -> & Hmn).
      exists 0%nat, tr, mn. rewrite Nat.add_0_r. auto.
    + destruct (IH _ H) as (j & tr' & mn & Hj & Hmn & ->).
      exists (S j), tr', mn. rewrite Nat.add_succ_r. auto.
Qed.

Lemma Qfloor_range (x : Q) (n : Z) :
  0 <= x -> x < inject_Z n -> (0 <= Qfloor x < n)%Z.
Proof.
  intros H0 Hn. split.
  - change 0%Z with (Qfloor 0). now apply Qfloor_resp_le.
  - rewrite Zlt_Qlt. eapply Qle_lt_trans; [apply Qfloor_le|exact Hn].
Qed.

Lemma mockLoop_app (turns : nat) (rand : Random) (k : nat) (t : Q)
  (notes : list NoteEvent) :
  mockLoop turns rand k t notes = (notes ++ mockLoop turns rand k t [])%list.
Proof.
  revert k t notes. induction turns as [|turns IH]; intros k t notes; simpl.
  - now rewrite List.app_nil_r.
  - destruct (Qltb (4 # 10) (rand k));
      rewrite IH, (IH _ _ [_]), <- List.app_assoc; reflexivity.
Qed.

Lemma mockLoop_length (turns : nat) (rand : Random) (k : nat) (t : Q) :
  length (mockLoop turns rand k t []) = turns.
Proof.
  revert k t. induction turns as [|turns IH]; intros k t; simpl; [reflexivity|].
  destruct (Qltb (4 # 10) (rand k));
    rewrite mockLoop_app, List.length_app, IH; reflexivity.
Qed.

Lemma mockLoop_S (turns : nat) (rand : Random) (k : nat) (t : Q) :
  mockLoop (S turns) rand k t []
  = if Qltb (4 # 10) (rand k)
    then {| note := 70 + Qfloor (rand (k + 1)%nat * 20); velocity := 90;
            startTime := t;
            duration := (2 # 10) + rand (k + 2)%nat * (5 # 10);
            track := Some 1%Z; channel := Some 1%Z |}
         :: mockLoop turns rand (k + 4)
                     (t + ((2 # 10) + rand (k + 3)%nat * (4 # 10))) []
    else {| note := 40 + Qfloor (rand (k + 1)%nat * 12); velocity := 70;
            startTime := t; duration := 8 # 10;
            track := Some 0%Z; channel := Some 0%Z |}
         :: mockLoop turns rand (k + 3)
                     (t + ((2 # 10) + rand (k + 2)%nat * (4 # 10))) [].
Proof.
  simpl. destruct (Qltb (4 # 10) (rand k)); now rewrite mockLoop_app.
Qed.

Lemma mockLoop_notes (turns : nat) (rand : Random) (k : nat) (t : Q) :
  (forall i, 0 <= rand i < 1) ->
  Forall isMockNote (mockLoop turns rand k t []).
Proof.
  intros Hr. revert k t.
  induction turns as [|turns IH]; intros k t; [constructor|].
  rewrite mockLoop_S.
  destruct (Qltb (4 # 10) (rand k)); constructor; try apply IH.
  - left. cbn [note velocity startTime duration track channel].
    destruct (Hr (k + 1)%nat) as [H0 H1]. destruct (Hr (k + 2)%nat) as [H2 H3].
    pose proof (Qfloor_range (rand (k + 1)%nat * 20) 20
                  ltac:(lra) ltac:(change (inject_Z 20) with 20; lra)).
    repeat split; try reflexivity; try lia; lra.
  - right. cbn [note velocity startTime duration track channel].
    destruct (Hr (k + 1)%nat) as [H0 H1].
    pose proof (Qfloor_range (rand (k + 1)%nat * 12) 12
                  ltac:(lra) ltac:(change (inject_Z 12) with 12; lra)).
    repeat split; try reflexivity; lia.
Qed.

Lemma mockLoop_ascending (turns : nat) (rand : Random) (k : nat) (t : Q) :
  (forall i, 0 <= rand i < 1) ->
  Forall (fun n => t <= startTime n) (mockLoop turns rand k t [])
  /\ StronglySorted startsStrictlyBefore (mockLoop turns rand k t []).
Proof.
  intros Hr. revert k t.
  induction turns as [|turns IH]; intros k t; [split; constructor|].
  rewrite mockLoop_S.
  destruct (Qltb (4 # 10) (rand k)).
  - destruct (IH (k + 4)%nat (t + ((2 # 10) + rand (k + 3)%nat * (4 # 10))))
      as [Hge Hs].
    destruct (Hr (k + 3)%nat) as [H0 H1].
    split; constructor; simpl; try apply Qle_refl; try exact Hs.
    + eapply Forall_impl; [exact Hge|]. intros n Hn. simpl in Hn. lra.
    + eapply Forall_impl; [exact Hge|]. intros n Hn.
      unfold startsStrictlyBefore; simpl in *. lra.
  - destruct (IH (k + 3)%nat (t + ((2 # 10) + rand (k + 2)%nat * (4 # 10))))
      as [Hge Hs].
    destruct (Hr (k + 2)%nat) as [H0 H1].
    split; constructor; simpl; try apply Qle_refl; try exact Hs.
    + eapply Forall_impl; [exact Hge|]. intros n Hn. simpl in Hn. lra.
    + eapply Forall_impl; [exact Hge|]. intros n Hn.
      unfold startsStrictlyBefore; simpl in *. lra.
Qed.

End MidiFacts.

(** X1.  [parseMidi] on a file that parses returns every note of every
    track exactly once, in ascending order of start time. *)
Theorem parseMidi_sorted_permutation (rand : Random) (tracks : list MidiTrack) :
  StronglySorted startsBefore (parseMidi rand (Some tracks))
  /\ Permutation (parseMidi rand (Some tracks)) (collectNotes 0 tracks)
  /\ length (parseMidi rand (Some tracks))
     = sum_list (length <$> (trackNotes <$> tracks)).
Proof.
  unfold parseMidi. split; [apply sortByStart_sorted|].
  split; [apply sortByStart_perm|].
  rewrite (Permutation_length (sortByStart_perm _)). apply collectNotes_length.
Qed.

(** X2.  The sort is stable: the notes that start at one and the same time
    [t] come out in the order of the file, track by track and, within a
    track, note by note. *)
Theorem parseMidi_stable (rand : Random) (tracks : list MidiTrack) (t : Q) :
  List.filter (fun n => Qeq_bool (startTime n) t) (parseMidi rand (Some tracks))
  = List.filter (fun n => Qeq_bool (startTime n) t) (collectNotes 0 tracks).
Proof.
  unfold parseMidi, sortByStart.
  induction (collectNotes 0 tracks) as [|n l IH]; [reflexivity|].
  cbn [foldr]. rewrite insertByStart_filter. cbn [List.filter].
  now rewrite IH.
Qed.

(** X3.  Every note [parseMidi] returns comes from a note of some track
    [j] of the file: it carries [j] as its track, the note's own channel if
    that is a number and else the track's channel or 0, the pitch, start
    and length unchanged and the velocity scaled by 127. *)
Theorem parseMidi_note_origin (rand : Random) (tracks : list MidiTrack)
  (n : NoteEvent) :
  n ∈ parseMidi rand (Some tracks) ->
  exists j tr mn,
    tracks !! j = Some tr /\ mn ∈ trackNotes tr
    /\ (j < length tracks)%nat
    /\ track n = Some (Z.of_nat j)
    /\ channel n = Some (match noteChannel mn with
                         | Some c => c
                         | None => orZero (trackChannel tr)
                         end)
    /\ note n = midi mn /\ startTime n = time mn
    /\ duration n = midiDuration mn
    /\ velocity n = (midiVelocity mn * 127)%Q.
Proof.
  unfold parseMidi. intros H.
  rewrite (sortByStart_perm (collectNotes 0 tracks)) in H.
  destruct (collectNotes_origin 0 tracks n H) as (j & tr & mn & Hj & Hmn & ->).
  exists j, tr, mn. split; [exact Hj|]. split; [exact Hmn|].
  split; [now apply lookup_lt_Some in Hj|].
  repeat split; reflexivity.
Qed.

Lemma parseMidi_note_origin_witness :
  exists j tr mn,
    [mkMidiTrack (Some 9) [mkMidiNote 36 1 0 (1 # 2) None];
     mkMidiTrack None [mkMidiNote 60 (1 # 2) 0 1 (Some 2)]] !! j = Some tr
    /\ mn ∈ trackNotes tr
    /\ (j < 2)%nat
    /\ track (mkNote 36 127 0 (1 # 2) (Some 0) (Some 9)) = Some (Z.of_nat j)
    /\ channel (mkNote 36 127 0 (1 # 2) (Some 0) (Some 9))
       = Some (match noteChannel mn with
               | Some c => c
               | None => orZero (trackChannel tr)
               end)
    /\ note (mkNote 36 127 0 (1 # 2) (Some 0) (Some 9)) = midi mn
    /\ startTime (mkNote 36 127 0 (1 # 2) (Some 0) (Some 9)) = time mn
    /\ duration (mkNote 36 127 0 (1 # 2) (Some 0) (Some 9)) = midiDuration mn
    /\ velocity (mkNote 36 127 0 (1 # 2) (Some 0) (Some 9))
       = (midiVelocity mn * 127)%Q.
Proof.
  apply (parseMidi_note_origin (fun _ => 0%Q)
           [mkMidiTrack (Some 9) [mkMidiNote 36 1 0 (1 # 2) None];
            mkMidiTrack None [mkMidiNote 60 (1 # 2) 0 1 (Some 2)]]).
  vm_compute. apply list_elem_of_here.
Defined.

(** X4.  [generateMockNotes] always returns 200 notes.  When [Math.random]
    stays in [[0,1)], each is a melody note (track and channel 1, pitch 70
    to 89, velocity 90, length from 0.2 to below 0.7) or a bass note (track
    and channel 0, pitch 40 to 51, velocity 70, length 0.8); all pitches lie
    in the range of the piano roll. *)
Theorem generateMockNotes_shape (rand : Random) :
  length (generateMockNotes rand) = 200%nat
  /\ ((forall i, (0 <= rand i < 1)%Q) ->
      Forall isMockNote (generateMockNotes rand)
      /\ Forall (fun n => (MIN_NOTE <= note n <= MAX_NOTE)%Z)
                (generateMockNotes rand)).
Proof.
  split; [apply mockLoop_length|].
  intros Hr.
  pose proof (mockLoop_notes 200 rand 0 0 Hr) as H.
  split; [exact H|].
  eapply Forall_impl; [exact H|].
  intros n [(_ & _ & Hn & _)|(_ & _ & Hn & _)]; unfold MIN_NOTE, MAX_NOTE; lia.
Qed.

Lemma generateMockNotes_shape_witness :
  Forall isMockNote (generateMockNotes (fun _ => (1 # 2)%Q)).
Proof.
  refine (proj1 (proj2 (generateMockNotes_shape (fun _ => (1 # 2)%Q)) _)).
  intros i. split; [discriminate|reflexivity].
Defined.

(** X5.  With [Math.random] in [[0,1)] the mock notes start at strictly
    increasing times, none before 0; so [parseMidi] returns its notes in
    ascending order of start time whether or not the file parses. *)
Theorem parseMidi_always_ascending (rand : Random)
  (parsed : option (list MidiTrack)) :
  (forall i, (0 <= rand i < 1)%Q) ->
  StronglySorted startsStrictlyBefore (generateMockNotes rand)
  /\ Forall (fun n => (0 <= startTime n)%Q) (generateMockNotes rand)
  /\ StronglySorted startsBefore (parseMidi rand parsed).
Proof.
  intros Hr.
  destruct (mockLoop_ascending 200 rand 0 0 Hr) as [Hge Hs].
  split; [exact Hs|]. split; [exact Hge|].
  destruct parsed as [tracks|]; [apply sortByStart_sorted|].
  unfold parseMidi, generateMockNotes.
  clear Hge. induction Hs as [|n l Hl IH Hn]; constructor; [exact IH|].
  eapply Forall_impl; [exact Hn|].
  intros m Hm. now apply Qlt_le_weak.
Qed.

Lemma parseMidi_always_ascending_witness :
  StronglySorted startsBefore (parseMidi (fun _ => (1 # 2)%Q) None).
Proof.
  refine (proj2 (proj2 (parseMidi_always_ascending (fun _ => (1 # 2)%Q) None _))).
  intros i. split; [discriminate|reflexivity].
Defined.

(** ** Further properties of theme extraction *)

Section ThemeMoreFacts.

Local Open Scope nat_scope.

Variable data : list Z.

Lemma accentStep_pixel (acc : list string) (j : nat) :
  accentStep data acc (j * 100)
  = if bool_decide (pixelHex data (25 * j) ∈ acc) then acc
    else acc ++ [pixelHex data (25 * j)].
Proof.
  unfold accentStep, pixelHex, pixelAt; cbn [r g b].
  replace (25 * j * 4) with (j * 100) by lia. reflexivity.
Qed.

Lemma accentPrefix_S (m : nat) :
  accentPrefix data (S m) = accentStep data (accentPrefix data m) (m * 100).
Proof. unfold accentPrefix. now rewrite seq_S, fmap_app, foldl_app. Qed.

Lemma accentPrefix_spec (m : nat) :
  NoDup (accentPrefix data m)
  /\ (forall h, h ∈ accentPrefix data m
                <-> exists j, j < m /\ h = pixelHex data (25 * j))
  /\ length (accentPrefix data m) <= m
  /\ (0 < m -> accentPrefix data m !! 0 = Some (pixelHex data 0)).
Proof.
  induction m as [|m (Hnd & Hin & Hlen & Hhd)].
  - split; [constructor|]. split; [|split; [simpl; lia|lia]].
    intros h. split; [intros H; inversion H|intros (j & Hj & _); lia].
  - rewrite accentPrefix_S, accentStep_pixel.
    case_bool_decide as Hmem.
    + split; [exact Hnd|]. split; [|split; [lia|]].
      * intros h. rewrite Hin. split.
        -- intros (j & Hj & ->). exists j. split; [lia|reflexivity].
        -- intros (j & Hj & ->).
           destruct (decide (j = m)) as [->|Hne].
           ++ now apply Hin.
           ++ exists j. split; [lia|reflexivity].
      * intros _. destruct m as [|m'].
        -- apply Hin in Hmem as (j & Hj & _). lia.
        -- apply Hhd. lia.
    + split; [|split; [|split]].
      * apply NoDup_app. split; [exact Hnd|]. split; [|apply NoDup_singleton].
        intros h Hh Hh'. apply list_elem_of_singleton in Hh'. now subst.
      * intros h. rewrite elem_of_app, list_elem_of_singleton, Hin. split.
        -- intros [(j & Hj & ->)| ->].
           ++ exists j. split; [lia|reflexivity].
           ++ exists m. split; [lia|reflexivity].
        -- intros (j & Hj & ->).
           destruct (decide (j = m)) as [->|Hne]; [now right|].
           left. exists j. split; [lia|reflexivity].
      * rewrite List.length_app. simpl. lia.
      * intros _. destruct m as [|m'].
        -- destruct (accentPrefix data 0) eqn:E; [reflexivity|].
           simpl in Hlen. lia.
        -- rewrite lookup_app_l; [apply Hhd; lia|].
           apply lookup_lt_is_Some. rewrite Hhd by lia. eauto.
Qed.

Lemma accentLoop_prefix (n : nat) :
  length data = 4 * n -> accentLoop data = accentPrefix data ((n + 24) / 25).
Proof.
  intros Hlen. unfold accentLoop, accentPrefix, strideIndices. rewrite Hlen.
  do 3 f_equal.
  replace (4 * n + 100 - 1) with (4 * n + 99) by lia.
  pose proof (Nat.div_mod (4 * n + 99) 100 ltac:(lia)).
  pose proof (Nat.mod_upper_bound (4 * n + 99) 100 ltac:(lia)).
  pose proof (Nat.div_mod (n + 24) 25 ltac:(lia)).
  pose proof (Nat.mod_upper_bound (n + 24) 25 ltac:(lia)).
  lia.
Qed.

Lemma accentLoop_canonical :
  Forall (fun h => canonicalHex h = true) (accentLoop data).
Proof.
  unfold accentLoop.
  assert (G : forall offsets acc,
            Forall (fun h => canonicalHex h = true) acc ->
            Forall (fun h => canonicalHex h = true)
                   (foldl (accentStep data) acc offsets)).
  { induction offsets as [|i offsets IH]; intros acc Hacc; simpl; [exact Hacc|].
    apply IH. unfold accentStep. case_bool_decide; [exact Hacc|].
    apply Forall_app. split; [exact Hacc|].
    constructor; [apply rgbToHex_is_canonical|constructor]. }
  apply G. constructor.
Qed.

Lemma frequency_two_buckets (key1 key2 : Bucket) (n : nat) :
  key1 <> key2 -> frequency data key1 n + frequency data key2 n <= n.
Proof.
  intros Hne. induction n as [|n IH]; [reflexivity|].
  rewrite !frequency_S.
  destruct (decide (bucketAt data n = key1)) as [E1|E1];
    destruct (decide (bucketAt data n = key2)) as [E2|E2]; try lia.
  congruence.
Qed.

Lemma dominant_bucket_max (n : nat) :
  length data = 4 * n -> 0 < n ->
  exists k, k < n
    /\ dominantColor (tallyLoop data) = pixelAt data k
    /\ forall key, frequency data key n <= frequency data (bucketAt data k) n.
Proof.
  intros Hlen Hn. rewrite (tallyLoop_prefix data n Hlen).
  destruct (tallyInv_prefix data n) as (_ & Hmax & Hdom).
  destruct n as [|n']; [lia|].
  destruct Hdom as (k & Hk & Hd & Hr & _).
  exists k. split; [exact Hk|]. split; [exact Hd|].
  intros key.
  pose proof (frequency_mono data (bucketAt data k) (S k) (S n') ltac:(lia)).
  specialize (Hmax key). lia.
Qed.

End ThemeMoreFacts.

Lemma adjustColor_canonical (hex : string) (brightness contrast : Q) :
  canonicalHex hex = true ->
  canonicalHex (adjustColor hex brightness contrast) = true.
Proof.
  intros H. apply canonicalHex_parses in H.
  unfold adjustColor. destruct (hexToRgb hex); [|congruence].
  apply rgbToHex_is_canonical.
Qed.

(** X13.  The second loop collects the colour strings of the pixels 0, 25,
    50, ... without repeats: a string is among the accent candidates exactly
    when one of those pixels has that colour, no string occurs twice, and
    the first candidate is the colour of the top-left pixel. *)
Theorem accent_candidates_distinct (data : list Z) (n : nat) :
  length data = (4 * n)%nat -> (0 < n)%nat ->
  NoDup (accentLoop data)
  /\ (forall h, h ∈ accentLoop data
                <-> exists j, (25 * j < n)%nat /\ h = pixelHex data (25 * j))
  /\ (length (accentLoop data) <= (n + 24) / 25)%nat
  /\ accentLoop data !! 0%nat = Some (pixelHex data 0).
Proof.
  intros Hlen Hn. rewrite (accentLoop_prefix data n Hlen).
  destruct (accentPrefix_spec data ((n + 24) / 25)) as (Hnd & Hin & Hl & Hhd).
  assert (Hm : forall j, (j < (n + 24) / 25 <-> 25 * j < n)%nat).
  { intros j.
    pose proof (Nat.div_mod (n + 24) 25 ltac:(lia)).
    pose proof (Nat.mod_upper_bound (n + 24) 25 ltac:(lia)).
    lia. }
  split; [exact Hnd|]. split; [|split; [exact Hl|]].
  - intros h. rewrite Hin. split; intros (j & Hj & ->); exists j;
      (split; [now apply Hm|reflexivity]).
  - apply Hhd. apply Hm. lia.
Qed.

Lemma accent_candidates_distinct_witness :
  accentLoop tiedImage !! 0%nat = Some (pixelHex tiedImage 0).
Proof.
  exact (proj2 (proj2 (proj2 (accent_candidates_distinct tiedImage 4 eq_refl
                                (Nat.lt_0_succ 3))))).
Defined.

(** X14.  Every colour of an extracted theme is a well-formed [#rrggbb]
    string: the background, the scope and text colour and every track.  The
    scope and text colours are the first track, and there are at most five
    tracks. *)
Theorem theme_colours_well_formed (getPixelData : string -> Decoded)
  (imgSrc : option string) (brightness contrast : Q) :
  (forall src data, getPixelData src = Resolved data ->
                    length data = (4 * 50 * 50)%nat) ->
  let theme := generateThemeFromImage getPixelData imgSrc brightness contrast in
  canonicalHex (background theme) = true
  /\ Forall (fun h => canonicalHex h = true) (tracks theme)
  /\ tracks theme !! 0%nat = Some (scope theme)
  /\ text theme = scope theme
  /\ (length (tracks theme) <= 5)%nat.
Proof.
  intros Hdec theme.
  assert (Hdef : canonicalHex (background DEFAULT_THEME) = true
                 /\ Forall (fun h => canonicalHex h = true) (tracks DEFAULT_THEME)
                 /\ tracks DEFAULT_THEME !! 0%nat = Some (scope DEFAULT_THEME)
                 /\ text DEFAULT_THEME = scope DEFAULT_THEME
                 /\ (length (tracks DEFAULT_THEME) <= 5)%nat).
  { split; [reflexivity|]. split; [repeat constructor|].
    split; [reflexivity|]. split; [reflexivity|]. simpl; lia. }
  unfold theme, generateThemeFromImage.
  destruct imgSrc as [[|c0 src]|]; try exact Hdef.
  destruct (getPixelData (String c0 src)) as [data|] eqn:E; [|exact Hdef].
  clear Hdef. unfold themeFromPixels, finishTheme.
  set (bgHex := adjustColor (rawBgHex data) brightness contrast).
  set (accents := take 5 _).
  assert (Hacc : Forall (fun h => canonicalHex h = true) accents).
  { unfold accents. apply Forall_take, Forall_fmap.
    eapply Forall_impl; [apply accentLoop_canonical|].
    intros h Hh. simpl. now apply adjustColor_canonical. }
  assert (Hlen : (length accents <= 5)%nat).
  { unfold accents. rewrite length_take. lia. }
  cbn [background tracks scope text].
  split; [apply adjustColor_canonical, rgbToHex_is_canonical|].
  destruct (length accents <? 2)%nat eqn:E2.
  - apply Nat.ltb_lt in E2.
    split; [apply Forall_app; split; [exact Hacc|]|].
    { constructor; [destruct (isDark bgHex); reflexivity|constructor]. }
    split; [|split; [reflexivity|rewrite List.length_app; simpl; lia]].
    destruct accents as [|a accents']; reflexivity.
  - apply Nat.ltb_ge in E2.
    split; [exact Hacc|].
    split; [|split; [reflexivity|exact Hlen]].
    destruct accents as [|a accents']; [simpl in E2; lia|reflexivity].
Qed.

Lemma theme_colours_well_formed_witness :
  canonicalHex (background (generateThemeFromImage
                              (fun _ => Resolved nearBlackImage)
                              (Some "cover.png"%string) 120 90)) = true.
Proof.
  refine (proj1 (theme_colours_well_formed (fun _ => Resolved nearBlackImage)
                   (Some "cover.png"%string) 120 90 _)).
  intros src data [= <-]. vm_compute. reflexivity.
Defined.

(** X15.  A bucket that holds more than half of the pixels always wins: the
    dominant colour is one of its pixels. *)
Theorem majority_bucket_wins (data : list Z) (n : nat) (key : Bucket) :
  length data = (4 * n)%nat ->
  (n < 2 * frequency data key n)%nat ->
  bucketOf (dominantColor (tallyLoop data)) = key.
Proof.
  intros Hlen Hmaj.
  assert (Hn : (0 < n)%nat).
  { destruct n; [simpl in Hmaj; lia|lia]. }
  destruct (dominant_bucket_max data n Hlen Hn) as (k & Hk & Hd & Hmax).
  rewrite Hd. fold (bucketAt data k).
  destruct (decide (bucketAt data k = key)) as [E|Hne]; [exact E|].
  pose proof (frequency_two_buckets data (bucketAt data k) key n Hne).
  specialize (Hmax key). lia.
Qed.

Lemma majority_bucket_wins_witness :
  bucketOf (dominantColor (tallyLoop
     ([250; 250; 250; 255] ++ [3; 2; 1; 255] ++ [0; 0; 0; 255]))) = (0, 0, 0).
Proof.
  apply (majority_bucket_wins
           ([250; 250; 250; 255] ++ [3; 2; 1; 255] ++ [0; 0; 0; 255]) 3 (0, 0, 0)
           eq_refl).
  vm_compute. lia.
Defined.


(** ** Further properties of the piano roll *)

Section PianoRollMoreFacts.

Local Open Scope Q_scope.

Variables (currentTime : Q) (palette : list string) (backgroundColor : string).
Variables (width height : Q) (hasRoundRect : bool).

Lemma rect_paints_once (x y w h radius : Q) :
  length (List.filter paints (rect hasRoundRect x y w h radius)) = 1%nat.
Proof. unfold rect. destruct hasRoundRect; reflexivity. Qed.

Lemma rect_keeps_state (st : DrawState) (x y w h radius : Q) :
  applyEffects st (rect hasRoundRect x y w h radius) = st.
Proof. unfold rect. destruct hasRoundRect; reflexivity. Qed.

Lemma noteEffects_paints (n : NoteEvent) :
  length (List.filter paints
            (noteEffects currentTime palette backgroundColor width height
                         hasRoundRect n))
  = if onScreen currentTime width n then 1%nat else 0%nat.
Proof.
  unfold noteEffects. destruct (onScreen currentTime width n); [|reflexivity].
  destruct (isActive currentTime n);
    unfold activeEffects, inactiveEffects;
    rewrite !List.filter_app, !List.length_app, rect_paints_once; reflexivity.
Qed.

Lemma applyEffects_app (st : DrawState) (es1 es2 : list Effect) :
  applyEffects st (es1 ++ es2) = applyEffects (applyEffects st es1) es2.
Proof. apply foldl_app. Qed.

Lemma noteEffects_keep_state (n : NoteEvent) :
  applyEffects freshState
    (noteEffects currentTime palette backgroundColor width height hasRoundRect n)
  = freshState.
Proof.
  unfold noteEffects. destruct (onScreen currentTime width n); [|reflexivity].
  destruct (isActive currentTime n);
    unfold activeEffects, inactiveEffects;
    rewrite !applyEffects_app, rect_keeps_state; reflexivity.
Qed.


Lemma notes_keep_state (notes : list NoteEvent) :
  applyEffects freshState
    (concat (noteEffects currentTime palette backgroundColor width height
                         hasRoundRect <$> notes))
  = freshState.
Proof.
  induction notes as [|n notes IH]; [reflexivity|].
  cbn [fmap list_fmap concat].
  now rewrite applyEffects_app, noteEffects_keep_state.
Qed.

Lemma frame_of_drawPianoRoll (ctx : Canvas) (notes : list NoteEvent) :
  drop (length ctx)
       (drawPianoRoll currentTime palette backgroundColor width height
                      hasRoundRect ctx notes)
  = [Save; SetFillStyle (Some backgroundColor); FillRect 0 0 width height]
    ++ playheadEffects backgroundColor width height
    ++ concat (noteEffects currentTime palette backgroundColor width height
                           hasRoundRect <$> notes)
    ++ [Restore].
Proof. unfold drawPianoRoll. now rewrite drop_app_length. Qed.

End PianoRollMoreFacts.

(** X17.  On a canvas of positive width every note whose start lies in the
    ten-second window, from 2.5 s before the playhead to 7.5 s after it, is
    drawn: it passes the culling test, its left edge is on the canvas, its
    rectangle is at least 3 pixels wide whatever its duration, and it is
    painted exactly once. *)
Theorem notes_in_window_are_drawn (currentTime width : Q) (n : NoteEvent) :
  (0 < width)%Q ->
  (- (25 # 10) <= relativeTime currentTime n)%Q ->
  (relativeTime currentTime n <= (75 # 10))%Q ->
  onScreen currentTime width n = true
  /\ (0 <= noteX currentTime width n <= width)%Q
  /\ (3 <= noteW width n)%Q
  /\ forall palette backgroundColor height hasRoundRect,
       length (List.filter paints
                 (noteEffects currentTime palette backgroundColor width height
                              hasRoundRect n)) = 1%nat.
Proof.
  intros Hw Hlo Hhi.
  pose proof (Qmax_ge_r (duration n * PX_PER_SEC width) 3) as Hmax.
  fold (noteW width n) in Hmax.
  assert (Hx : (0 <= noteX currentTime width n <= width)%Q).
  { unfold noteX, PLAYHEAD_X, PX_PER_SEC, TIME_WINDOW.
    set (t := relativeTime currentTime n) in *. clearbody t.
    assert (E : (width * (25 # 100) + t * (width / 10)
                 == width * ((25 # 100) + t * (1 # 10)))%Q) by field.
    rewrite E.
    assert (Hs : (0 <= (25 # 100) + t * (1 # 10) <= 1)%Q) by (split; lra).
    set (f := ((25 # 100) + t * (1 # 10))%Q) in *. clearbody f.
    assert (0 <= width * f)%Q by (apply Qmult_le_0_compat; lra).
    assert (0 <= width * (1 - f))%Q by (apply Qmult_le_0_compat; lra).
    split; lra. }
  assert (Hon : onScreen currentTime width n = true).
  { unfold onScreen. apply andb_true_iff. split; apply Qltb_lt; lra. }
  split; [exact Hon|]. split; [exact Hx|]. split; [exact Hmax|].
  intros palette backgroundColor height hasRoundRect.
  rewrite noteEffects_paints. now rewrite Hon.
Qed.

Lemma notes_in_window_are_drawn_witness :
  onScreen 10 1920 (mkNote 60 100 (35 # 2) 0 None None) = true.
Proof.
  apply (proj1 (notes_in_window_are_drawn 10 1920
                  (mkNote 60 100 (35 # 2) 0 None None)
                  ltac:(reflexivity) ltac:(discriminate) ltac:(discriminate))).
Defined.


(** X19.  The styling of a note does not leak: after the effects of any
    list of notes, and after the whole frame, the shadow blur, the shadow
    offsets and the global alpha are back at their initial values. *)
Theorem piano_roll_restores_state (currentTime : Q) (palette : list string)
  (backgroundColor : string) (width height : Q) (hasRoundRect : bool)
  (ctx : Canvas) (notes : list NoteEvent) :
  applyEffects freshState
    (concat (noteEffects currentTime palette backgroundColor width height
                         hasRoundRect <$> notes)) = freshState
  /\ applyEffects freshState
       (drop (length ctx)
          (drawPianoRoll currentTime palette backgroundColor width height
                         hasRoundRect ctx notes)) = freshState.
Proof.
  split; [apply notes_keep_state|].
  rewrite frame_of_drawPianoRoll, !applyEffects_app.
  change (applyEffects
            (applyEffects freshState
               [Save; SetFillStyle (Some backgroundColor);
                FillRect 0 0 width height])
            (playheadEffects backgroundColor width height))
    with freshState.
  now rewrite notes_keep_state.
Qed.


(** X21.  The track colours repeat with the length of the palette: two
    notes whose track-plus-channel sums are non-negative and differ by a
    multiple of the palette length get the same colour. *)
Theorem colours_cycle (n1 n2 : NoteEvent) (palette : list string) (k : Z) :
  0 <= discriminator n1 -> 0 <= k ->
  discriminator n2 = discriminator n1 + k * Z.of_nat (length palette) ->
  paletteAt palette (colorIdx n2 palette)
  = paletteAt palette (colorIdx n1 palette).
Proof.
  intros Hd Hk E. unfold colorIdx.
  destruct palette as [|p palette]; [reflexivity|].
  set (len := Z.of_nat (length (p :: palette))) in *.
  assert (Hlen : 0 < len) by (unfold len; simpl; lia).
  rewrite !Z.rem_mod_nonneg by nia.
  rewrite E, Z.mod_add by lia. reflexivity.
Qed.

Lemma colours_cycle_witness :
  paletteAt ["#1a1a1a"; "#8c8c8c"; "#4a4a4a"; "#b0b0b0"]%string
            (colorIdx (mkNote 60 100 0 1 (Some 9) (Some 2))
                      ["#1a1a1a"; "#8c8c8c"; "#4a4a4a"; "#b0b0b0"]%string)
  = paletteAt ["#1a1a1a"; "#8c8c8c"; "#4a4a4a"; "#b0b0b0"]%string
              (colorIdx (mkNote 72 100 0 1 (Some 3) None)
                        ["#1a1a1a"; "#8c8c8c"; "#4a4a4a"; "#b0b0b0"]%string).
Proof.
  apply (colours_cycle (mkNote 72 100 0 1 (Some 3) None)
           (mkNote 60 100 0 1 (Some 9) (Some 2))
           ["#1a1a1a"; "#8c8c8c"; "#4a4a4a"; "#b0b0b0"]%string 2);
    [vm_compute; discriminate|lia|reflexivity].
Defined.

(** ** Further properties of the oscilloscope *)

Section OscilloscopeMoreFacts.

Local Open Scope Q_scope.

Variables (width height : Q).

Lemma readSamples_length (a : AnalyserNode) :
  length (readSamples a) = frequencyBinCount a.
Proof.
  unfold readSamples.
  rewrite length_take, List.length_app, List.repeat_length. lia.
Qed.

Lemma repeat_lookup (x : Z) (n i : nat) :
  (i < n)%nat -> List.repeat x n !! i = Some x.
Proof.
  revert i. induction n as [|n IH]; intros i Hi; [lia|].
  destruct i as [|i]; [reflexivity|]. simpl. apply IH. lia.
Qed.

Lemma readSamples_lookup (a : AnalyserNode) (k : nat) :
  (k < frequencyBinCount a)%nat ->
  readSamples a !! k = Some (default 0%Z (timeDomainData a !! k)).
Proof.
  intros Hk. unfold readSamples. rewrite lookup_take_lt by assumption.
  destruct (timeDomainData a !! k) as [s|] eqn:E.
  - now rewrite (lookup_app_l_Some _ _ _ _ E).
  - apply lookup_ge_None in E. rewrite lookup_app_r by assumption.
    simpl. apply repeat_lookup. lia.
Qed.

Lemma waveEffects_length (sliceWidth : Q) (samples : list Z) (i : nat) (x : Q) :
  length (waveEffects height sliceWidth samples i x) = length samples.
Proof.
  revert i x. induction samples as [|s samples IH]; intros i x; simpl;
    [reflexivity|now rewrite IH].
Qed.

Lemma waveEffects_lookup (sliceWidth : Q) (samples : list Z) (i k : nat)
  (x0 : Q) (s : Z) :
  samples !! k = Some s ->
  exists x,
    waveEffects height sliceWidth samples i x0 !! k
    = Some ((if (i + k =? 0)%nat then MoveTo else LineTo)
              x (inject_Z s / 128 * height / 2))
    /\ x == x0 + inject_Z (Z.of_nat k) * sliceWidth.
Proof.
  revert i k x0. induction samples as [|s0 samples IH]; intros i k x0 Hk;
    [discriminate|].
  destruct k as [|k].
  - injection Hk as ->. exists x0. rewrite Nat.add_0_r. split.
    + simpl. destruct (i =? 0)%nat; reflexivity.
    + change (inject_Z (Z.of_nat 0)) with 0. ring.
  - destruct (IH (S i) k (x0 + sliceWidth) Hk) as (x & Hx & Ex).
    exists x. split.
    + simpl. rewrite Hx. now replace (i + S k)%nat with (S i + k)%nat by lia.
    + rewrite Ex, Nat2Z.inj_succ. unfold Z.succ. rewrite inject_Z_plus.
      change (inject_Z 1) with 1. ring.
Qed.

Lemma waveEffects_within (sliceWidth : Q) (samples : list Z) (i : nat) (x0 : Q) :
  0 <= height -> 0 <= sliceWidth -> 0 <= x0 ->
  x0 + inject_Z (Z.of_nat (length samples)) * sliceWidth <= width + sliceWidth ->
  Forall (fun s => (0 <= s <= 255)%Z) samples ->
  Forall (withinCanvas width height)
         (waveEffects height sliceWidth samples i x0).
Proof.
  intros Hh Hsw. revert i x0.
  induction samples as [|s samples IH]; intros i x0 Hx0 Hfit Hbytes;
    [constructor|].
  apply Forall_cons in Hbytes as [[Hs0 Hs1] Hbytes].
  assert (Hn : 0 <= inject_Z (Z.of_nat (length samples)) * sliceWidth).
  { apply Qmult_le_0_compat; [|exact Hsw].
    change 0 with (inject_Z 0). rewrite <- Zle_Qle. lia. }
  assert (Hlen : inject_Z (Z.of_nat (length (s :: samples)))
                 == 1 + inject_Z (Z.of_nat (length samples))).
  { cbn [length]. rewrite Nat2Z.inj_succ. unfold Z.succ.
    rewrite inject_Z_plus. change (inject_Z 1) with 1. ring. }
  rewrite Hlen in Hfit.
  cbn [waveEffects]. constructor.
  - assert (Hy : 0 <= inject_Z s / 128 * height / 2 <= height).
    { rewrite Zle_Qle in Hs0, Hs1.
      change (inject_Z 0) with 0 in Hs0. change (inject_Z 255) with 255 in Hs1.
      set (q := inject_Z s) in *. clearbody q.
      assert (E : q / 128 * height / 2 == (q * (1 # 256)) * height) by field.
      rewrite E.
      assert (0 <= q * (1 # 256) * height)
        by (apply Qmult_le_0_compat; lra).
      assert (0 <= (1 - q * (1 # 256)) * height)
        by (apply Qmult_le_0_compat; lra).
      split; lra. }
    destruct (i =? 0)%nat; simpl; (split; [split; lra|exact Hy]).
  - apply IH; [lra|lra|exact Hbytes].
Qed.

End OscilloscopeMoreFacts.

(** X22.  While playing with an analyser attached, [drawOscilloscope] reads
    the analyser once and draws one path with as many points as the analyser
    reports: point [k] is at [x = k * width / count] and
    [y = sample / 128 * height / 2], the first by [moveTo] and the others by
    [lineTo]; samples the analyser did not deliver count as 0.  The path
    ends at the right edge at half height. *)
Theorem oscilloscope_waveform (color backgroundColor : string)
  (width height : Q) (ctx : Canvas) (a : AnalyserNode) :
  exists wave,
    drawOscilloscope color backgroundColor width height ctx (Some a) true
    = ctx ++ [Save; SetFillStyle (Some backgroundColor);
              FillRect 0 0 width height;
              GetByteTimeDomainData (frequencyBinCount a);
              SetStrokeStyle (Some color); SetLineWidth 2; BeginPath]
          ++ wave ++ [LineTo width (height / 2); Stroke; Restore]
    /\ length wave = frequencyBinCount a
    /\ forall k, (k < frequencyBinCount a)%nat ->
         exists x,
           wave !! k
           = Some ((if (k =? 0)%nat then MoveTo else LineTo) x
                     (inject_Z (default 0%Z (timeDomainData a !! k)) / 128
                      * height / 2)%Q)
           /\ (x == inject_Z (Z.of_nat k)
                    * (width / inject_Z (Z.of_nat (frequencyBinCount a))))%Q.
Proof.
  exists (waveEffects height
            (width * 1 / inject_Z (Z.of_nat (frequencyBinCount a)))%Q
            (readSamples a) 0 0).
  split; [|split].
  - unfold drawOscilloscope. now rewrite <- !List.app_assoc.
  - now rewrite waveEffects_length, readSamples_length.
  - intros k Hk.
    destruct (waveEffects_lookup height
                (width * 1 / inject_Z (Z.of_nat (frequencyBinCount a)))%Q
                (readSamples a) 0 k 0 _ (readSamples_lookup a k Hk))
      as (x & Hx & Ex).
    exists x. split; [exact Hx|].
    rewrite Ex. unfold Qdiv. ring.
Qed.

(** X23.  With samples that are bytes, on a canvas of non-negative size,
    every point of the frame the oscilloscope draws lies on the canvas, in
    the idle state as well as while playing. *)
Theorem oscilloscope_stays_on_canvas (color backgroundColor : string)
  (width height : Q) (ctx : Canvas) (analyser : option AnalyserNode)
  (isPlaying : bool) :
  (0 <= width)%Q -> (0 <= height)%Q ->
  (forall a, analyser = Some a ->
             Forall (fun s => 0 <= s <= 255) (timeDomainData a)) ->
  Forall (withinCanvas width height)
         (drop (length ctx)
            (drawOscilloscope color backgroundColor width height ctx
                              analyser isPlaying)).
Proof.
  intros Hw Hh Hbytes.
  assert (Hhalf : (0 <= height / 2 <= height)%Q).
  { assert (E : (height / 2 == height * (1 # 2))%Q) by field.
    rewrite E. split; lra. }
  assert (Hidle : Forall (withinCanvas width height)
                    (drop (length ctx)
                       (drawOscilloscope color backgroundColor width height
                                         ctx analyser false))).
  { unfold drawOscilloscope.
    replace (match analyser with Some _ | _ => _ end)
      with ((ctx ++ [Save; SetFillStyle (Some backgroundColor);
                     FillRect 0 0 width height])
              ++ idleEffects color width height)
      by (destruct analyser; reflexivity).
    rewrite <- List.app_assoc, drop_app_length.
    repeat constructor; simpl; try lra; apply Hhalf. }
  destruct isPlaying; [|exact Hidle].
  destruct analyser as [a|]; [|exact Hidle]. clear Hidle.
  unfold drawOscilloscope. rewrite <- !List.app_assoc, drop_app_length.
  do 3 (apply Forall_cons; split; [exact I|]).
  rewrite Forall_app. split; [repeat constructor|].
  rewrite Forall_app. split.
  - set (n := frequencyBinCount a).
    assert (Hsamples : Forall (fun s => 0 <= s <= 255) (readSamples a)).
    { unfold readSamples. apply Forall_take, Forall_app. split.
      - now apply Hbytes.
      - apply Forall_forall. intros s Hs.
        apply list_elem_of_In, repeat_spec in Hs. lia. }
    destruct (decide (n = 0%nat)) as [Hn|Hn].
    { pose proof (readSamples_length a) as Hl. fold n in Hl. rewrite Hn in Hl.
      destruct (readSamples a); [constructor|discriminate]. }
    assert (Hq : (0 < inject_Z (Z.of_nat n))%Q).
    { change 0%Q with (inject_Z 0). rewrite <- Zlt_Qlt. lia. }
    assert (Hsw : (0 <= width * 1 / inject_Z (Z.of_nat n))%Q).
    { apply Qle_shift_div_l; [exact Hq|]. lra. }
    apply waveEffects_within; try assumption; [apply Qle_refl|].
    rewrite readSamples_length. fold n.
    assert (E : (0 + inject_Z (Z.of_nat n) * (width * 1 / inject_Z (Z.of_nat n))
                 == width)%Q).
    { field. intros H. rewrite H in Hq. exact (Qlt_irrefl _ Hq). }
    rewrite E. lra.
  - repeat constructor; simpl; try lra; apply Hhalf.
Qed.

Lemma oscilloscope_stays_on_canvas_witness :
  Forall (withinCanvas 800 200)
         (drop (length [Stroke])
            (drawOscilloscope "#1a1a1a" "#fffbe9" 800 200 [Stroke]
               (Some (mkAnalyser 4 [128; 255; 0])) true)).
Proof.
  apply (oscilloscope_stays_on_canvas "#1a1a1a" "#fffbe9" 800 200 [Stroke]
           (Some (mkAnalyser 4 [128; 255; 0])) true);
    [discriminate|discriminate|].
  intros a [= <-]. simpl. repeat constructor; lia.
Defined.

(** ** The note sources and the renderer together *)

Lemma paletteAt_defined (n : NoteEvent) (palette : list string) :
  palette <> [] -> 0 <= discriminator n ->
  exists color, color ∈ palette
                /\ paletteAt palette (colorIdx n palette) = Some color.
Proof.
  intros Hne Hd. unfold colorIdx.
  destruct palette as [|p palette]; [congruence|].
  set (len := Z.of_nat (length (p :: palette))).
  assert (Hlen : 0 < len) by (unfold len; simpl; lia).
  rewrite Z.rem_mod_nonneg by lia.
  pose proof (Z.mod_pos_bound (discriminator n) len Hlen) as Hr.
  destruct (lookup_lt_is_Some_2 (p :: palette)
              (Z.to_nat (discriminator n mod len))) as [color Hc];
    [unfold len in *; lia|].
  exists color. split; [now apply list_elem_of_lookup_2 in Hc|].
  unfold paletteAt.
  destruct (discriminator n mod len <? 0) eqn:E;
    [apply Z.ltb_lt in E; lia|exact Hc].
Qed.

Lemma generateMockNotes_notes (rand : Random) :
  (forall i, (0 <= rand i < 1)%Q) -> Forall isMockNote (generateMockNotes rand).
Proof. exact (mockLoop_notes 200 rand 0 0). Qed.

Lemma isMockNote_discriminator (n : NoteEvent) :
  isMockNote n -> 0 <= discriminator n.
Proof.
  unfold discriminator.
  intros [(-> & -> & _)|(-> & -> & _)]; simpl; lia.
Qed.

Lemma parseMidi_None (rand : Random) :
  parseMidi rand None = generateMockNotes rand.
Proof. reflexivity. Qed.

Lemma mock_note_discriminator (rand : Random) (n : NoteEvent) :
  (forall i, (0 <= rand i < 1)%Q) ->
  n ∈ parseMidi rand None -> 0 <= discriminator n.
Proof.
  intros Hr Hn. rewrite parseMidi_None in Hn.
  apply isMockNote_discriminator.
  pose proof (generateMockNotes_notes rand Hr) as Hall.
  rewrite Forall_forall in Hall. apply Hall. exact Hn.
Qed.

Lemma parsed_note_discriminator (tracks : list MidiTrack) (n : NoteEvent) :
  (forall tr mn, tr ∈ tracks -> mn ∈ trackNotes tr ->
     (forall c, trackChannel tr = Some c -> 0 <= c)
     /\ (forall c, noteChannel mn = Some c -> 0 <= c)) ->
  n ∈ sortByStart (collectNotes 0 tracks) -> 0 <= discriminator n.
Proof.
  intros Hch Hn.
  rewrite (sortByStart_perm (collectNotes 0 tracks)) in Hn.
  destruct (collectNotes_origin 0 tracks n Hn) as (j & tr & mn & Hj & Hmn & ->).
  apply list_elem_of_lookup_2 in Hj.
  destruct (Hch tr mn Hj Hmn) as [Ht Hc].
  unfold discriminator, noteEventOf, orZero; cbn [track channel].
  destruct (noteChannel mn) as [c|].
  - specialize (Hc c eq_refl). simpl. lia.
  - destruct (trackChannel tr) as [c|]; simpl;
      [specialize (Ht c eq_refl)|]; lia.
Qed.

(** X24.  Every note [parseMidi] returns gets a colour of the palette when
    the piano roll draws it, provided the palette is not empty, the channels
    in the file are not negative and [Math.random] stays in [[0,1)]: this
    holds for the notes of a parsed file and for the mock notes alike. *)
Theorem parsed_notes_get_colours (rand : Random)
  (parsed : option (list MidiTrack)) (palette : list string) (n : NoteEvent) :
  palette <> [] ->
  (forall i, (0 <= rand i < 1)%Q) ->
  (forall tracks tr mn, parsed = Some tracks -> tr ∈ tracks ->
     mn ∈ trackNotes tr ->
     (forall c, trackChannel tr = Some c -> 0 <= c)
     /\ (forall c, noteChannel mn = Some c -> 0 <= c)) ->
  n ∈ parseMidi rand parsed ->
  exists color, color ∈ palette
                /\ paletteAt palette (colorIdx n palette) = Some color.
Proof.
  intros Hne Hr Hch Hn. apply paletteAt_defined; [exact Hne|].
  destruct parsed as [tracks|].
  - apply (parsed_note_discriminator tracks n); [|exact Hn].
    intros tr mn. now apply Hch.
  - now apply (mock_note_discriminator rand).
Qed.

Lemma parsed_notes_get_colours_witness :
  exists color,
    color ∈ ["#1a1a1a"; "#8c8c8c"; "#4a4a4a"]%string
    /\ paletteAt ["#1a1a1a"; "#8c8c8c"; "#4a4a4a"]%string
         (colorIdx (mkNote 36 127 0 (1 # 2) (Some 0) (Some 9))
                   ["#1a1a1a"; "#8c8c8c"; "#4a4a4a"]%string) = Some color.
Proof.
  apply (parsed_notes_get_colours (fun _ => (1 # 2)%Q)
           (Some [mkMidiTrack (Some 9) [mkMidiNote 36 1 0 (1 # 2) None]])
           ["#1a1a1a"; "#8c8c8c"; "#4a4a4a"]%string
           (mkNote 36 127 0 (1 # 2) (Some 0) (Some 9))).
  - discriminate.
  - intros i. split; [discriminate|reflexivity].
  - intros tracks tr mn [= <-] Htr Hmn.
    apply list_elem_of_singleton in Htr. subst tr.
    apply list_elem_of_singleton in Hmn. subst mn.
    split; [intros c [= <-]; lia|intros c H; discriminate H].
  - vm_compute. apply list_elem_of_here.
Defined.

(** X25.  The padding of the track list adds one colour only.  On an empty
    pixel array, which the 50x50 canvas never produces, the scan finds no
    accent, the background is the adjusted black, and the palette ends up
    with a single track, the fallback. *)
Theorem empty_pixels_give_one_track (brightness contrast : Q) :
  let bgHex := adjustColor "#000000" brightness contrast in
  accentLoop [] = []
  /\ background (themeFromPixels [] brightness contrast) = bgHex
  /\ tracks (themeFromPixels [] brightness contrast)
     = [(if isDark bgHex then "#ffffff" else "#000000")%string].
Proof.
  intros bgHex.
  assert (E : rawBgHex [] = "#000000"%string) by (vm_compute; reflexivity).
  split; [reflexivity|].
  unfold themeFromPixels. rewrite E. fold bgHex.
  change (accentLoop []) with (@nil string).
  unfold finishTheme. cbn [background tracks]. split; reflexivity.
Qed.

(** ** Properties of the binary64 rounding *)

Section Binary64Facts.

Local Open Scope Q_scope.

Lemma Qfloor_bounds (a : Q) : inject_Z (Qfloor a) <= a < inject_Z (Qfloor a) + 1.
Proof.
  split; [apply Qfloor_le|].
  pose proof (Qlt_floor a) as H. rewrite inject_Z_plus in H. exact H.
Qed.

Lemma RNE_bounds (a : Q) : (Qfloor a <= RNE a <= Qfloor a + 1)%Z.
Proof.
  unfold RNE. destruct (a - inject_Z (Qfloor a) ?= 1 # 2); try lia.
  destruct (Z.even (Qfloor a)); lia.
Qed.

Lemma RNE_Z (k : Z) : RNE (inject_Z k) = k.
Proof.
  unfold RNE. rewrite Qfloor_Z.
  assert (E : inject_Z k - inject_Z k == 0) by ring.
  destruct (Qcompare_spec (inject_Z k - inject_Z k) (1 # 2)) as [H|H|H];
    rewrite E in H; try reflexivity; discriminate H.
Qed.

Lemma RNE_mono (a b : Q) : a <= b -> (RNE a <= RNE b)%Z.
Proof.
  intros Hab.
  pose proof (Qfloor_resp_le a b Hab) as Hf.
  pose proof (RNE_bounds a) as Ba. pose proof (RNE_bounds b) as Bb.
  destruct (Z_lt_le_dec (Qfloor a) (Qfloor b)) as [Hlt|Hge]; [lia|].
  assert (Ef : Qfloor a = Qfloor b) by lia. clear Hf Hge Ba Bb.
  unfold RNE. rewrite Ef.
  destruct (Qcompare_spec (a - inject_Z (Qfloor b)) (1 # 2)) as [Ha|Ha|Ha];
    destruct (Qcompare_spec (b - inject_Z (Qfloor b)) (1 # 2)) as [Hb|Hb|Hb];
    try lia; try (destruct (Z.even (Qfloor b)); lia);
    exfalso; lra.
Qed.

Lemma pow2_pos (s : Z) : (0 < 2 ^ s)%Z -> 0 < inject_Z (2 ^ s).
Proof. intros H. change 0 with (inject_Z 0). now rewrite <- Zlt_Qlt. Qed.

Lemma shiftOf_nonneg (X : Q) : (0 <= shiftOf X)%Z.
Proof. unfold shiftOf. lia. Qed.

(** Below the shift the scaled number has at most 53 bits. *)
Lemma scaled_upper (X : Q) :
  0 <= X -> X / inject_Z (2 ^ shiftOf X) <= inject_Z (2 ^ 53).
Proof.
  intros HX.
  pose proof (shiftOf_nonneg X) as Hs.
  assert (Hp : (0 < 2 ^ shiftOf X)%Z) by (apply Z.pow_pos_nonneg; lia).
  apply Qle_shift_div_r; [now apply pow2_pos|].
  rewrite <- inject_Z_mult, <- Z.pow_add_r by lia.
  destruct (Qfloor_bounds X) as [_ Hup].
  assert (HN : (0 <= Qfloor X)%Z).
  { change 0%Z with (Qfloor 0). now apply Qfloor_resp_le. }
  assert (Hlt : (Qfloor X + 1 <= 2 ^ (53 + shiftOf X))%Z).
  { destruct (Z.eq_dec (Qfloor X) 0%Z) as [E|NE].
    - rewrite E. pose proof (Z.pow_pos_nonneg 2 (53 + shiftOf X)). lia.
    - destruct (Z.log2_spec (Qfloor X) ltac:(lia)) as [_ Hl].
      assert ((2 ^ Z.succ (Z.log2 (Qfloor X)) <= 2 ^ (53 + shiftOf X))%Z);
        [|lia].
      apply Z.pow_le_mono_r; [lia|]. unfold shiftOf. lia. }
  rewrite Zle_Qle, inject_Z_plus in Hlt. change (inject_Z 1) with 1 in Hlt.
  lra.
Qed.

(** With a positive shift it has no fewer than 53 bits. *)
Lemma scaled_lower (X : Q) :
  (0 < shiftOf X)%Z -> inject_Z (2 ^ 52) <= X / inject_Z (2 ^ shiftOf X).
Proof.
  intros Hs.
  assert (Hp : (0 < 2 ^ shiftOf X)%Z) by (apply Z.pow_pos_nonneg; lia).
  apply Qle_shift_div_l; [now apply pow2_pos|].
  rewrite <- inject_Z_mult, <- Z.pow_add_r by lia.
  destruct (Qfloor_bounds X) as [Hlo _].
  assert (Hlog : Z.log2 (Qfloor X) = (52 + shiftOf X)%Z).
  { unfold shiftOf in *. lia. }
  assert (HN : (0 < Qfloor X)%Z).
  { destruct (Z_lt_le_dec 0%Z (Qfloor X)) as [H|H]; [exact H|].
    rewrite (Z.log2_nonpos _ H) in Hlog. lia. }
  destruct (Z.log2_spec (Qfloor X) HN) as [Hl _].
  rewrite Hlog in Hl. rewrite Zle_Qle in Hl. lra.
Qed.

Lemma shiftOf_mono (X Y : Q) : X <= Y -> (shiftOf X <= shiftOf Y)%Z.
Proof.
  intros H. unfold shiftOf.
  pose proof (Z.log2_le_mono _ _ (Qfloor_resp_le X Y H)). lia.
Qed.

(** The rounded number, counted in units of [2^-1074]. *)
Lemma scaled_round_mono (X Y : Q) :
  0 <= X -> X <= Y ->
  (RNE (X / inject_Z (2 ^ shiftOf X)) * 2 ^ shiftOf X
   <= RNE (Y / inject_Z (2 ^ shiftOf Y)) * 2 ^ shiftOf Y)%Z.
Proof.
  intros HX HXY.
  pose proof (shiftOf_mono X Y HXY) as Hs.
  pose proof (shiftOf_nonneg X) as HsX.
  destruct (Z.eq_dec (shiftOf X) (shiftOf Y)) as [E|NE].
  - rewrite E. apply Z.mul_le_mono_nonneg_r; [apply Z.pow_nonneg; lia|].
    apply RNE_mono.
    assert (Hp : (0 < 2 ^ shiftOf Y)%Z) by (apply Z.pow_pos_nonneg; lia).
    apply Qmult_le_compat_r; [exact HXY|].
    apply Qlt_le_weak, Qinv_lt_0_compat. now apply pow2_pos.
  - assert (HsY : (0 < shiftOf Y)%Z) by lia.
    pose proof (RNE_mono _ _ (scaled_upper X HX)) as HA. rewrite RNE_Z in HA.
    pose proof (RNE_mono _ _ (scaled_lower Y HsY)) as HB. rewrite RNE_Z in HB.
    assert (H1 : (RNE (X / inject_Z (2 ^ shiftOf X)) * 2 ^ shiftOf X
                  <= 2 ^ 53 * 2 ^ shiftOf X)%Z).
    { apply Z.mul_le_mono_nonneg_r; [apply Z.pow_nonneg; lia|exact HA]. }
    assert (H2 : (2 ^ 52 * 2 ^ shiftOf Y
                  <= RNE (Y / inject_Z (2 ^ shiftOf Y)) * 2 ^ shiftOf Y)%Z).
    { apply Z.mul_le_mono_nonneg_r; [apply Z.pow_nonneg; lia|exact HB]. }
    assert (H3 : (2 ^ 53 * 2 ^ shiftOf X <= 2 ^ 52 * 2 ^ shiftOf Y)%Z).
    { rewrite <- !Z.pow_add_r by lia. apply Z.pow_le_mono_r; lia. }
    lia.
Qed.

Lemma unitScale_pos : 0 < inject_Z unitScale.
Proof. reflexivity. Qed.

Lemma flpos_mono (x y : Q) : 0 <= x -> x <= y -> flpos x <= flpos y.
Proof.
  intros Hx Hxy. unfold flpos.
  pose proof unitScale_pos as HU.
  apply Qmult_le_compat_r;
    [|apply Qlt_le_weak, Qinv_lt_0_compat; exact HU].
  rewrite <- Zle_Qle. apply scaled_round_mono.
  - apply Qmult_le_0_compat; [exact Hx|now apply Qlt_le_weak].
  - apply Qmult_le_compat_r; [exact Hxy|now apply Qlt_le_weak].
Qed.

Lemma flpos_0 : flpos 0 == 0.
Proof. reflexivity. Qed.

Lemma flpos_nonneg (x : Q) : 0 <= x -> 0 <= flpos x.
Proof. intros H. rewrite <- flpos_0. apply flpos_mono; [apply Qle_refl|exact H]. Qed.

(** Rounding keeps the order. *)
Lemma fl_mono (x y : Q) : x <= y -> fl x <= fl y.
Proof.
  intros Hxy. unfold fl. rewrite !Qred_correct.
  destruct (Qlt_le_dec x 0) as [Hx|Hx]; destruct (Qlt_le_dec y 0) as [Hy|Hy].
  - apply Qopp_le_compat. apply flpos_mono; lra.
  - pose proof (flpos_nonneg (- x) ltac:(lra)).
    pose proof (flpos_nonneg y Hy). lra.
  - exfalso. lra.
  - now apply flpos_mono.
Qed.

(** Equal numbers round to the same number, written the same way. *)
Lemma fl_Qeq (x y : Q) : x == y -> fl x = fl y.
Proof.
  intros E. unfold fl. apply Qred_complete.
  assert (fl x == fl y) as H.
  { apply Qle_antisym; apply fl_mono; rewrite E; apply Qle_refl. }
  unfold fl in H. now rewrite !Qred_correct in H.
Qed.

End Binary64Facts.

(** ** The error of one rounding *)

Section RoundingError.

Local Open Scope Q_scope.

(** Rounding to the nearest integer moves a number by at most a half. *)
Lemma RNE_half (a : Q) : a - (1 # 2) <= inject_Z (RNE a) <= a + (1 # 2).
Proof.
  destruct (Qfloor_bounds a) as [Hlo Hhi].
  unfold RNE.
  destruct (Qcompare_spec (a - inject_Z (Qfloor a)) (1 # 2)) as [H|H|H].
  - destruct (Z.even (Qfloor a)).
    + lra.
    + rewrite inject_Z_plus. change (inject_Z 1) with 1. lra.
  - lra.
  - rewrite inject_Z_plus. change (inject_Z 1) with 1. lra.
Qed.

Lemma tiny64_small : 0 < tiny64 /\ tiny64 <= 1 # 1152921504606846976.
Proof. split; vm_compute; [reflexivity|discriminate]. Qed.

Lemma flpos_error (x : Q) :
  0 <= x ->
  x - (x * eps64 + tiny64) <= flpos x <= x + (x * eps64 + tiny64).
Proof.
  intros Hx.
  pose proof unitScale_pos as HU.
  set (X := x * inject_Z unitScale).
  assert (HX : 0 <= X).
  { apply Qmult_le_0_compat; [exact Hx|now apply Qlt_le_weak]. }
  pose proof (shiftOf_nonneg X) as Hs.
  assert (Hp : (0 < 2 ^ shiftOf X)%Z) by (apply Z.pow_pos_nonneg; lia).
  pose proof (pow2_pos _ Hp) as HP.
  pose proof (RNE_half (X / inject_Z (2 ^ shiftOf X))) as Hr.
  (* the distance, in units *)
  assert (Hd : X - inject_Z (2 ^ shiftOf X) * (1 # 2)
               <= inject_Z (RNE (X / inject_Z (2 ^ shiftOf X)) * 2 ^ shiftOf X)
               <= X + inject_Z (2 ^ shiftOf X) * (1 # 2)).
  { rewrite inject_Z_mult.
    set (P := inject_Z (2 ^ shiftOf X)) in *.
    set (R := inject_Z (RNE (X / P))) in *.
    assert (E1 : (X / P - (1 # 2)) * P == X - P * (1 # 2)) by (field; lra).
    assert (E2 : (X / P + (1 # 2)) * P == X + P * (1 # 2)) by (field; lra).
    destruct Hr as [Hr1 Hr2].
    apply (Qmult_le_compat_r _ _ P) in Hr1; [|lra].
    apply (Qmult_le_compat_r _ _ P) in Hr2; [|lra].
    rewrite E1 in Hr1. rewrite E2 in Hr2. split; assumption. }
  (* half a step is at most [X * eps64 + 1/2] units *)
  assert (Hstep : inject_Z (2 ^ shiftOf X) * (1 # 2) <= X * eps64 + (1 # 2)).
  { destruct (Z.eq_dec (shiftOf X) 0%Z) as [E0|NE].
    - rewrite E0. change (inject_Z (2 ^ 0)) with 1.
      assert (0 <= X * eps64); [|lra].
      apply Qmult_le_0_compat; [exact HX|discriminate].
    - pose proof (scaled_lower X ltac:(lia)) as Hl.
      apply (Qmult_le_compat_r _ _ (inject_Z (2 ^ shiftOf X))) in Hl; [|lra].
      assert (E : X / inject_Z (2 ^ shiftOf X) * inject_Z (2 ^ shiftOf X) == X)
        by (field; lra).
      rewrite E in Hl.
      change (inject_Z (2 ^ 52)) with (4503599627370496 # 1) in Hl.
      unfold eps64. lra. }
  unfold flpos. fold X.
  set (Y := inject_Z (RNE (X / inject_Z (2 ^ shiftOf X)) * 2 ^ shiftOf X)) in *.
  assert (Ex : x == X / inject_Z unitScale).
  { unfold X. field. lra. }
  assert (Et : tiny64 == (1 # 2) / inject_Z unitScale) by reflexivity.
  assert (Hgoal : X / inject_Z unitScale
                  - (X / inject_Z unitScale * eps64 + (1 # 2) / inject_Z unitScale)
                  <= Y / inject_Z unitScale
                  <= X / inject_Z unitScale
                     + (X / inject_Z unitScale * eps64
                        + (1 # 2) / inject_Z unitScale)).
  { destruct Hd as [Hd1 Hd2].
    assert (Hi : 0 < / inject_Z unitScale) by now apply Qinv_lt_0_compat.
    split.
    - assert (E1 : X / inject_Z unitScale
                   - (X / inject_Z unitScale * eps64
                      + (1 # 2) / inject_Z unitScale)
                   == (X - (X * eps64 + (1 # 2))) * / inject_Z unitScale)
        by (field; lra).
      rewrite E1. apply Qmult_le_compat_r; lra.
    - assert (E1 : X / inject_Z unitScale
                   + (X / inject_Z unitScale * eps64
                      + (1 # 2) / inject_Z unitScale)
                   == (X + (X * eps64 + (1 # 2))) * / inject_Z unitScale)
        by (field; lra).
      rewrite E1. apply Qmult_le_compat_r; lra. }
  rewrite Et. clearbody Y. clearbody X.
  revert Ex Hgoal.
  generalize (X / inject_Z unitScale), ((1 # 2) / inject_Z unitScale),
             (Y / inject_Z unitScale).
  intros a h y Ex Hg. unfold eps64 in *. lra.
Qed.

(** One rounding moves a number of size at most [B] by at most
    [B * 2^-53 + 2^-1075]. *)
Lemma fl_near (x B : Q) :
  - B <= x <= B ->
  x - (B * eps64 + tiny64) <= fl x <= x + (B * eps64 + tiny64).
Proof.
  intros [HB1 HB2]. unfold fl. rewrite Qred_correct.
  assert (He : 0 < eps64) by reflexivity.
  destruct (Qlt_le_dec x 0) as [Hx|Hx].
  - pose proof (flpos_error (- x) ltac:(lra)) as [H1 H2].
    assert ((- x) * eps64 <= B * eps64).
    { apply Qmult_le_compat_r; lra. }
    lra.
  - pose proof (flpos_error x Hx) as [H1 H2].
    assert (x * eps64 <= B * eps64).
    { apply Qmult_le_compat_r; lra. }
    lra.
Qed.

Lemma fl_0 : fl 0 = 0.
Proof. reflexivity. Qed.

Lemma fl_nonneg (x : Q) : 0 <= x -> 0 <= fl x.
Proof. intros H. rewrite <- fl_0. now apply fl_mono. Qed.

(** A product of two bounded numbers. *)
Lemma Qmult_bounded (a d A D : Q) :
  - A <= a <= A -> - D <= d <= D -> - (A * D) <= a * d <= A * D.
Proof.
  intros [Ha1 Ha2] [Hd1 Hd2].
  pose proof (Qmult_le_0_compat (A - a) (D - d) ltac:(lra) ltac:(lra)) as P1.
  pose proof (Qmult_le_0_compat (A + a) (D + d) ltac:(lra) ltac:(lra)) as P2.
  pose proof (Qmult_le_0_compat (A - a) (D + d) ltac:(lra) ltac:(lra)) as P3.
  pose proof (Qmult_le_0_compat (A + a) (D - d) ltac:(lra) ltac:(lra)) as P4.
  split; lra.
Qed.

End RoundingError.

(** ** The colour adjustment in binary64 *)

Section Adjust64Facts.

Local Open Scope Q_scope.

(** [rgbToHex] rounds halves up and clamps. *)
Lemma roundedClamped_round (x : Q) : roundedClamped x (clampByte (Math_round x)).
Proof.
  exists (Math_round x). split; [unfold Math_round; apply Qfloor_bounds|].
  unfold clampByte.
  destruct (Z.ltb_spec (Math_round x) 0); [lia|].
  destruct (Z.ltb_spec 255 (Math_round x)); lia.
Qed.

(** The description leaves no choice. *)
Lemma roundedClamped_unique (x : Q) (k1 k2 : Z) :
  roundedClamped x k1 -> roundedClamped x k2 -> k1 = k2.
Proof.
  intros (n1 & [L1 U1] & ->) (n2 & [L2 U2] & ->).
  assert (H1 : (n1 < n2 + 1)%Z).
  { rewrite Zlt_Qlt, inject_Z_plus. change (inject_Z 1) with 1. lra. }
  assert (H2 : (n2 < n1 + 1)%Z).
  { rewrite Zlt_Qlt, inject_Z_plus. change (inject_Z 1) with 1. lra. }
  assert (n1 = n2) as -> by lia. reflexivity.
Qed.

(** Over the range of the two sliders the binary64 channel stays within
    [2^-40] of the exact one. *)
Lemma specChannel64_near (brightness contrast : Q) (v : Z) :
  0 <= brightness <= 200 -> 0 <= contrast <= 200 -> (0 <= v <= 255)%Z ->
  specChannel brightness contrast v - (1 # 1099511627776)
  <= specChannel64 brightness contrast v
  <= specChannel brightness contrast v + (1 # 1099511627776).
Proof.
  intros [Hb1 Hb2] [Hc1 Hc2] [Hv1 Hv2].
  pose proof tiny64_small as [Hu1 Hu2].
  unfold specChannel64, specChannel. cbv zeta.
  assert (Hiv : 0 <= inject_Z v <= 255).
  { split; [change 0 with (inject_Z 0)|change 255 with (inject_Z 255)];
      rewrite <- Zle_Qle; lia. }
  set (iv := inject_Z v) in *. clearbody iv.
  assert (Hc : 0 <= contrast / 100 <= 2).
  { split; [apply Qle_shift_div_l|apply Qle_shift_div_r]; lra. }
  set (c := contrast / 100) in *. clearbody c.
  pose proof (fl_near (iv - 128) 128 ltac:(lra)) as Ha.
  set (a' := fl (iv - 128)) in *. clearbody a'.
  pose proof (fl_near c 2 ltac:(lra)) as Hc'.
  set (c' := fl c) in *. clearbody c'.
  unfold eps64 in *.
  pose proof (Qmult_bounded a' (c' - c) 129 (1 # 2251799813685248)
                ltac:(lra) ltac:(lra)) as Hp1.
  pose proof (Qmult_bounded (a' - (iv - 128)) c (1 # 35184372088832) 2
                ltac:(lra) ltac:(lra)) as Hp2.
  pose proof (Qmult_bounded (iv - 128) c 128 2 ltac:(lra) ltac:(lra)) as Hp3.
  assert (E : a' * c'
              == a' * (c' - c) + (a' - (iv - 128)) * c + (iv - 128) * c) by ring.
  set (t1 := a' * (c' - c)) in *. set (t2 := (a' - (iv - 128)) * c) in *.
  set (t3 := (iv - 128) * c) in *. clearbody t1 t2 t3.
  pose proof (fl_near (a' * c') 257 ltac:(lra)) as Hp.
  set (p' := fl (a' * c')) in *. clearbody p'.
  pose proof (fl_near (p' + 128) 400 ltac:(unfold eps64 in *; lra)) as Hq.
  set (q' := fl (p' + 128)) in *. clearbody q'.
  pose proof (fl_near (brightness - 100) 100 ltac:(lra)) as Hbd.
  set (bd' := fl (brightness - 100)) in *. clearbody bd'.
  pose proof (fl_near (bd' * (3 # 2)) 151 ltac:(unfold eps64 in *; lra)) as Hm.
  set (m' := fl (bd' * (3 # 2))) in *. clearbody m'.
  pose proof (fl_near (q' + m') 600 ltac:(unfold eps64 in *; lra)) as Hs.
  unfold eps64 in *. lra.
Qed.

End Adjust64Facts.

(** C3.  [adjustColor] computes each channel as the specification says,
    contrast first, [v' = (v - 128) * (contrast / 100) + 128], then
    brightness, [v'' = v' + (brightness - 100) * 1.5], every operation
    being a binary64 one; the channel that is written is [v''] rounded to
    the nearest integer, halves going up, and clamped to [[0,255]].  Over
    the range of the sliders [v''] is within [2^-40] of the value of the
    formula in exact arithmetic.  Mid grey at brightness 200 gives white,
    at brightness 0 black. *)
Theorem adjustColor_contrast_then_brightness (hex : string) (c : Rgb)
  (brightness contrast : Q) :
  hexToRgb hex = Some c ->
  adjustColor64 hex brightness contrast
  = rgbToHex (specChannel64 brightness contrast (r c))
             (specChannel64 brightness contrast (g c))
             (specChannel64 brightness contrast (b c))
  /\ (exists c',
        hexToRgb (adjustColor64 hex brightness contrast) = Some c'
        /\ roundedClamped (specChannel64 brightness contrast (r c)) (r c')
        /\ roundedClamped (specChannel64 brightness contrast (g c)) (g c')
        /\ roundedClamped (specChannel64 brightness contrast (b c)) (b c'))
  /\ ((0 <= brightness <= 200)%Q -> (0 <= contrast <= 200)%Q ->
      forall v, In v [r c; g c; b c] ->
        (specChannel brightness contrast v - (1 # 1099511627776)
         <= specChannel64 brightness contrast v
         <= specChannel brightness contrast v + (1 # 1099511627776))%Q)
  /\ adjustColor64 "#808080" 200 100 = "#ffffff"%string
  /\ adjustColor64 "#808080" 0 100 = "#000000"%string.
Proof.
  intros H.
  assert (E : adjustColor64 hex brightness contrast
              = rgbToHex (specChannel64 brightness contrast (r c))
                         (specChannel64 brightness contrast (g c))
                         (specChannel64 brightness contrast (b c))).
  { unfold adjustColor64. rewrite H. unfold adjust64, specChannel64.
    cbv zeta. reflexivity. }
  split; [exact E|]. split; [|split; [|split]].
  - rewrite E, hexToRgb_rgbToHex. eexists. split; [reflexivity|].
    cbn [r g b]. repeat split; apply roundedClamped_round.
  - intros Hb Hc v Hv.
    destruct (hexToRgb_range hex c H) as (Hr & Hg & Hbl).
    apply specChannel64_near; [exact Hb|exact Hc|].
    destruct Hv as [<-|[<-|[<-|[]]]]; assumption.
  - vm_compute. reflexivity.
  - vm_compute. reflexivity.
Qed.

Lemma adjustColor_contrast_then_brightness_witness :
  exists c',
    hexToRgb (adjustColor64 "#1c0000" 101 109) = Some c'
    /\ roundedClamped (specChannel64 101 109 28) (r c')
    /\ roundedClamped (specChannel64 101 109 0) (g c')
    /\ roundedClamped (specChannel64 101 109 0) (b c').
Proof.
  exact (proj1 (proj2 (adjustColor_contrast_then_brightness
                         "#1c0000" (mkRgb 28 0 0) 101 109 eq_refl))).
Defined.

(** At a tie of the exact formula the binary64 value decides: here the
    exact [v''] is 20.5 and the binary64 one lies just below it. *)
Lemma adjustColor64_below_tie :
  adjustColor64 "#1c0000" 101 109 = "#140000"%string
  /\ adjustColor "#1c0000" 101 109 = "#150000"%string
  /\ (specChannel 101 109 28 == 41 # 2)%Q
  /\ (specChannel64 101 109 28 < 41 # 2)%Q.
Proof.
  assert (E : specChannel64 101 109 28
              = (1442559255642111 # 70368744177664)%Q)
    by (vm_compute; reflexivity).
  split; [vm_compute; reflexivity|]. split; [vm_compute; reflexivity|].
  split; [reflexivity|]. rewrite E. reflexivity.
Qed.

(** ** The active test in binary64 *)

Section Active64Facts.

Local Open Scope Q_scope.

Lemma isActive64_spec (currentTime : Q) (n : NoteEvent) :
  isActive64 currentTime n = true
  <-> startTime n <= currentTime
      /\ currentTime <= fl (startTime n + duration n).
Proof.
  unfold isActive64. rewrite andb_true_iff, !Qle_bool_iff. reflexivity.
Qed.

(** A binary64 time within the exact interval is within the rounded one. *)
Lemma isActive64_exact_interval (currentTime : Q) (n : NoteEvent) :
  isBinary64 currentTime ->
  startTime n <= currentTime -> currentTime <= startTime n + duration n ->
  isActive64 currentTime n = true.
Proof.
  intros Hb Hs He. apply isActive64_spec. split; [exact Hs|].
  unfold isBinary64 in Hb. rewrite <- Hb. now apply fl_mono.
Qed.

Lemma glow_not_inactive64 (backgroundColor : string) (currentTime width height : Q)
  (hasRoundRect : bool) (n : NoteEvent) (fillStyle : Style) :
  ~ In (SetShadowBlur 15)
       (inactiveEffects64 currentTime backgroundColor width height hasRoundRect
                          n fillStyle).
Proof.
  unfold inactiveEffects64. intros H.
  apply in_app_or in H as [H|H]; [simpl in H; intuition discriminate|].
  apply in_app_or in H as [H|H]; [exact (glow_in_rect _ _ _ _ _ _ H)|].
  simpl in H. intuition discriminate.
Qed.

Lemma glow64_iff (currentTime : Q) (palette : list string)
  (backgroundColor : string) (width height : Q) (hasRoundRect : bool)
  (n : NoteEvent) :
  In (SetShadowBlur 15)
     (noteEffects64 currentTime palette backgroundColor width height
                    hasRoundRect n)
  <-> onScreen64 currentTime width n = true /\ isActive64 currentTime n = true.
Proof.
  unfold noteEffects64.
  destruct (onScreen64 currentTime width n); [|simpl; intuition discriminate].
  destruct (isActive64 currentTime n).
  - split; [auto|intros _; simpl; auto].
  - split; [|intros [_ H]; discriminate].
    intros H. exfalso. exact (glow_not_inactive64 _ _ _ _ _ _ _ H).
Qed.

(** A note that starts now is on screen on any canvas. *)
Lemma onScreen64_at_playhead (currentTime width : Q) (n : NoteEvent) :
  startTime n == currentTime -> 0 <= width ->
  onScreen64 currentTime width n = true.
Proof.
  intros Hs Hw.
  pose proof tiny64_small as [Hu1 Hu2].
  assert (Hrel : relativeTime64 currentTime n = 0).
  { unfold relativeTime64. rewrite <- fl_0. apply fl_Qeq. rewrite Hs. ring. }
  assert (Hx : noteX64 currentTime width n = fl (PLAYHEAD_X64 width)).
  { unfold noteX64. rewrite Hrel.
    rewrite (fl_Qeq (0 * PX_PER_SEC64 width) 0) by ring. rewrite fl_0.
    apply fl_Qeq. ring. }
  assert (HP : 0 <= width * (25 # 100)) by lra.
  pose proof (fl_nonneg _ HP) as HP0. fold (PLAYHEAD_X64 width) in HP0.
  pose proof (fl_near (width * (25 # 100)) (width * (25 # 100)) ltac:(lra))
    as [_ HP1].
  fold (PLAYHEAD_X64 width) in HP1.
  set (P := PLAYHEAD_X64 width) in *. clearbody P.
  pose proof (fl_nonneg _ HP0) as HX0.
  pose proof (fl_near P P ltac:(lra)) as [_ HX1].
  pose proof (fl_near (width + 100) (width + 100) ltac:(lra)) as [HR _].
  pose proof (Qmax_ge_r (fl (duration n * PX_PER_SEC64 width)) 3) as HW.
  fold (noteW64 width n) in HW.
  unfold onScreen64. rewrite Hx. apply andb_true_iff.
  split; apply Qltb_lt.
  - assert (H3 : fl 3 <= fl (fl P + noteW64 width n)) by (apply fl_mono; lra).
    change (fl 3) with 3 in H3. lra.
  - unfold eps64 in *. lra.
Qed.

End Active64Facts.

(** The rounded end of a note can lie after its exact end: the note from
    0.1 s lasting 0.2 s is still active, and drawn with the glow, at
    0.30000000000000004 s, which is [2^-55] s after the exact end. *)
Lemma active_after_the_exact_end :
  (exists eps : Q,
      (0 < eps)%Q
      /\ (lateTime == startTime tenthNote + duration tenthNote + eps)%Q)
  /\ (0 < duration tenthNote)%Q
  /\ isBinary64 lateTime
  /\ isActive64 lateTime tenthNote = true
  /\ In (SetShadowBlur 15)
        (noteEffects64 lateTime (tracks DEFAULT_THEME) (background DEFAULT_THEME)
                       1920 1080 true tenthNote).
Proof.
  assert (Ea : isActive64 lateTime tenthNote = true) by (vm_compute; reflexivity).
  assert (Eo : onScreen64 lateTime 1920 tenthNote = true)
    by (vm_compute; reflexivity).
  split.
  { exists (1 # 36028797018963968)%Q. split; [reflexivity|].
    vm_compute. reflexivity. }
  split; [vm_compute; reflexivity|].
  split; [unfold isBinary64; vm_compute; reflexivity|].
  split; [exact Ea|].
  apply (proj2 (glow64_iff _ _ _ _ _ _ _)). split; [exact Eo|exact Ea].
Qed.

(** C6.  A note is active exactly when [currentTime] lies between
    [startTime] and the binary64 sum [startTime + duration], both ends
    included.  Every binary64 time of the exact closed interval is such a
    time, so a note that starts now and lasts is active; a note whose
    rounded end lies any [eps > 0] back is not; and past the exact end a
    note is active only at the rounded end itself.  The glow
    ([shadowBlur = 15]) is set for a note exactly when it is on screen and
    active. *)
Theorem active_iff_in_closed_interval (currentTime : Q) (n : NoteEvent) :
  (isActive64 currentTime n = true
   <-> (startTime n <= currentTime
        /\ currentTime <= fl (startTime n + duration n))%Q)
  /\ (isBinary64 currentTime ->
      (startTime n <= currentTime)%Q ->
      (currentTime <= startTime n + duration n)%Q ->
      isActive64 currentTime n = true)
  /\ (isBinary64 currentTime ->
      (startTime n == currentTime)%Q -> (0 < duration n)%Q ->
      isActive64 currentTime n = true)
  /\ (forall eps : Q, (0 < eps)%Q ->
        (currentTime == fl (startTime n + duration n) + eps)%Q ->
        isActive64 currentTime n = false)
  /\ (isBinary64 currentTime ->
      (startTime n + duration n < currentTime)%Q ->
      isActive64 currentTime n = true ->
      (currentTime == fl (startTime n + duration n))%Q)
  /\ (forall palette backgroundColor width height hasRoundRect,
        In (SetShadowBlur 15)
           (noteEffects64 currentTime palette backgroundColor width height
                          hasRoundRect n)
        <-> onScreen64 currentTime width n = true
            /\ isActive64 currentTime n = true)
  /\ (forall palette backgroundColor width height hasRoundRect,
        isBinary64 currentTime ->
        (startTime n == currentTime)%Q -> (0 < duration n)%Q ->
        (0 <= width)%Q ->
        In (SetShadowBlur 15)
           (noteEffects64 currentTime palette backgroundColor width height
                          hasRoundRect n)).
Proof.
  assert (Hnow : isBinary64 currentTime ->
                 (startTime n == currentTime)%Q -> (0 < duration n)%Q ->
                 isActive64 currentTime n = true).
  { intros Hb Hs Hd. apply isActive64_exact_interval; [exact Hb|lra|lra]. }
  split; [apply isActive64_spec|].
  split; [apply isActive64_exact_interval|].
  split; [exact Hnow|]. split; [|split; [|split]].
  - intros eps Heps Ht.
    destruct (isActive64 currentTime n) eqn:E; [|reflexivity].
    apply isActive64_spec in E as [_ E]. exfalso. lra.
  - intros Hb Hlate Ha.
    apply isActive64_spec in Ha as [_ Ha].
    apply Qle_antisym; [exact Ha|].
    unfold isBinary64 in Hb. rewrite <- Hb. apply fl_mono. lra.
  - intros. apply glow64_iff.
  - intros palette backgroundColor width height hasRoundRect Hb Hs Hd Hw.
    apply glow64_iff. split; [|now apply Hnow].
    now apply onScreen64_at_playhead.
Qed.

Lemma active_iff_in_closed_interval_witness :
  isActive64 0 (mkNote 60 100 0 1 (Some 0) (Some 0)) = true
  /\ isActive64 (3 # 2) (mkNote 60 100 0 1 (Some 0) (Some 0)) = false.
Proof.
  split.
  - apply (proj1 (proj2 (proj2 (active_iff_in_closed_interval
                                  0 (mkNote 60 100 0 1 (Some 0) (Some 0))))));
      reflexivity.
  - apply (proj1 (proj2 (proj2 (proj2 (active_iff_in_closed_interval
                           (3 # 2) (mkNote 60 100 0 1 (Some 0) (Some 0))))))
             (1 # 2)); reflexivity.
Defined.

(** ** Theme extraction in binary64 *)

Section Theme64Facts.

Local Open Scope nat_scope.

Lemma finishTheme64_tracks (bgHex : string) (potentialColors : list string)
  (contrast : Q) :
  let accents :=
    take 5 ((fun hex => adjustColor64 hex (if isDark64 bgHex then 150 else 50)
                                      contrast) <$> potentialColors) in
  tracks (finishTheme64 bgHex potentialColors contrast)
  = if length accents <? 2
    then accents ++ [if isDark64 bgHex then "#ffffff" else "#000000"]%string
    else accents.
Proof. reflexivity. Qed.

Lemma accents64_length (data : list Z) (bgHex : string) (contrast : Q) :
  0 < length data -> 1 <= length (accents64 data bgHex contrast) <= 5.
Proof.
  intros Hlen. pose proof (accentLoop_nonempty data Hlen).
  unfold accents64. rewrite length_take, length_fmap. lia.
Qed.

Lemma isDark64_spec (hex : string) :
  isDark64 hex = true <-> (getHexLuminance64 hex < 128)%Q.
Proof.
  unfold isDark64. destruct (Qlt_le_dec (getHexLuminance64 hex) 128) as [H|H].
  - split; auto.
  - split; [discriminate|]. intros H'. exfalso. exact (Qlt_not_le _ _ H' H).
Qed.

(** An image of one colour. *)
Lemma flat_pixels (x y z a : Z) (n k : nat) :
  k < n -> pixelAt (concat (repeat [x; y; z; a] n)) k = mkRgb x y z.
Proof.
  revert k. induction n as [|n IH]; intros k Hk; [lia|].
  destruct k as [|k]; [reflexivity|].
  rewrite <- (IH k) by lia. unfold pixelAt, byteAt. cbn [repeat concat].
  replace (S k * 4) with (4 + k * 4) by lia.
  replace (4 + k * 4 + 1) with (4 + (k * 4 + 1)) by lia.
  replace (4 + k * 4 + 2) with (4 + (k * 4 + 2)) by lia.
  reflexivity.
Qed.

Lemma flat_length (x y z a : Z) (n : nat) :
  length (concat (repeat [x; y; z; a] n)) = 4 * n.
Proof. induction n as [|n IH]; [reflexivity|]. cbn [repeat concat]. rewrite length_app, IH. simpl. lia. Qed.

Section Flat.

Variables (data : list Z) (n : nat) (p : Rgb).
Hypothesis Hlen : length data = 4 * n.
Hypothesis Hn : 0 < n.
Hypothesis Hflat : forall k, k < n -> pixelAt data k = p.

Lemma flat_dominant : dominantColor (tallyLoop data) = p.
Proof.
  destruct (dominant_bucket_max data n Hlen Hn) as (k & Hk & -> & _).
  now apply Hflat.
Qed.

Lemma flat_accentLoop :
  accentLoop data = [rgbToHex (inject_Z (r p)) (inject_Z (g p)) (inject_Z (b p))].
Proof.
  set (hex := rgbToHex _ _ _).
  rewrite (accentLoop_prefix data n Hlen).
  destruct (accentPrefix_spec data ((n + 24) / 25)) as (Hnd & Hin & _ & Hhd).
  assert (Hm : 0 < (n + 24) / 25).
  { pose proof (Nat.div_mod (n + 24) 25 ltac:(lia)).
    pose proof (Nat.mod_upper_bound (n + 24) 25 ltac:(lia)). lia. }
  assert (Hall : forall h, h ∈ accentPrefix data ((n + 24) / 25) -> h = hex).
  { intros h Hh. apply Hin in Hh as (j & Hj & ->).
    unfold pixelHex. rewrite Hflat; [reflexivity|].
    pose proof (Nat.div_mod (n + 24) 25 ltac:(lia)).
    pose proof (Nat.mod_upper_bound (n + 24) 25 ltac:(lia)). lia. }
  destruct (accentPrefix data ((n + 24) / 25)) as [|h0 [|h1 rest]].
  - specialize (Hhd Hm). discriminate.
  - f_equal. apply Hall. apply list_elem_of_here.
  - exfalso. apply NoDup_cons in Hnd as [Hnot _]. apply Hnot.
    rewrite (Hall h0) by apply list_elem_of_here.
    rewrite <- (Hall h1) by (apply list_elem_of_further, list_elem_of_here).
    apply list_elem_of_here.
Qed.

End Flat.

(** The flat green image: colour, accent candidates, and the two colours
    the program derives from them. *)
Lemma flatGreen_facts :
  rawBgHex flatGreenImage = "#0caf04"%string
  /\ accentLoop flatGreenImage = ["#0caf04"%string]
  /\ adjustColor64 "#0caf04" 100 100 = "#0caf04"%string
  /\ isDark64 "#0caf04" = true
  /\ adjustColor64 "#0caf04" 150 100 = "#57fa4f"%string.
Proof.
  assert (Hlen : length flatGreenImage = 4 * 2500) by apply flat_length.
  assert (Hflat : forall k, k < 2500 -> pixelAt flatGreenImage k = mkRgb 12 175 4).
  { intros k Hk. now apply flat_pixels. }
  split.
  { unfold rawBgHex.
    rewrite (flat_dominant flatGreenImage 2500 (mkRgb 12 175 4) Hlen ltac:(lia) Hflat).
    vm_compute. reflexivity. }
  split.
  { rewrite (flat_accentLoop flatGreenImage 2500 (mkRgb 12 175 4) Hlen ltac:(lia) Hflat).
    vm_compute. reflexivity. }
  split; [vm_compute; reflexivity|].
  split; vm_compute; reflexivity.
Qed.

End Theme64Facts.

(** C2.  Whatever the brightness and contrast, and whatever image the host
    decoded into the 50x50 canvas, the palette that [generateThemeFromImage]
    returns has at least two track colours.  Of a decoded image between one
    and five accent colours survive the scan; when fewer than two did, the
    tracks are the accents followed by one fallback, white when the adjusted
    background is dark (its luminance, as the program computes it, is below
    128) and black when it is light; otherwise the tracks are the accents.
    Without an image, or when decoding fails, the default theme with its
    four tracks is returned. *)
Theorem tracks_at_least_two (getPixelData : string -> Decoded)
  (imgSrc : option string) (brightness contrast : Q) :
  (forall src data, getPixelData src = Resolved data ->
                    length data = (4 * 50 * 50)%nat) ->
  let theme := generateThemeFromImage64 getPixelData imgSrc brightness contrast in
  (2 <= length (tracks theme))%nat
  /\ (forall src data,
        imgSrc = Some src -> src <> ""%string ->
        getPixelData src = Resolved data ->
        let accents := accents64 data (background theme) contrast in
        background theme = adjustColor64 (rawBgHex data) brightness contrast
        /\ (1 <= length accents <= 5)%nat
        /\ ((length accents < 2)%nat ->
            tracks theme
            = accents ++ [if isDark64 (background theme)
                          then "#ffffff" else "#000000"]%string)
        /\ ((2 <= length accents)%nat -> tracks theme = accents)
        /\ (isDark64 (background theme) = true
            <-> (getHexLuminance64 (background theme) < 128)%Q))
  /\ (imgSrc = None \/ imgSrc = Some ""%string
      \/ (exists src, imgSrc = Some src /\ getPixelData src = Rejected) ->
      theme = DEFAULT_THEME /\ length (tracks theme) = 4%nat).
Proof.
  intros Hdec theme.
  assert (Hdef : (2 <= length (tracks DEFAULT_THEME))%nat) by (simpl; lia).
  assert (Hres : forall c0 src data,
            imgSrc = Some (String c0 src) ->
            getPixelData (String c0 src) = Resolved data ->
            theme = themeFromPixels64 data brightness contrast).
  { intros c0 src data -> E. unfold theme, generateThemeFromImage64.
    now rewrite E. }
  assert (Hpx : forall data, length data = (4 * 50 * 50)%nat ->
            let t := themeFromPixels64 data brightness contrast in
            let accents := accents64 data (background t) contrast in
            background t = adjustColor64 (rawBgHex data) brightness contrast
            /\ (1 <= length accents <= 5)%nat
            /\ tracks t
               = if (length accents <? 2)%nat
                 then accents ++ [if isDark64 (background t)
                                  then "#ffffff" else "#000000"]%string
                 else accents).
  { intros data Hlen t accents.
    split; [reflexivity|].
    split; [apply accents64_length; lia|].
    unfold t, themeFromPixels64. apply finishTheme64_tracks. }
  split; [|split].
  - destruct imgSrc as [[|c0 src]|] eqn:Ei; [exact Hdef| |exact Hdef].
    destruct (getPixelData (String c0 src)) as [data|] eqn:E.
    + rewrite (Hres c0 src data eq_refl E).
      destruct (Hpx data (Hdec _ _ E)) as (_ & Hacc & ->).
      destruct (length _ <? 2)%nat eqn:E2.
      * rewrite length_app. cbn [length]. lia.
      * apply Nat.ltb_ge in E2. exact E2.
    + unfold theme, generateThemeFromImage64. rewrite E. exact Hdef.
  - intros src data Ei Hne E accents.
    destruct src as [|c0 src]; [congruence|].
    unfold accents. rewrite (Hres c0 src data Ei E).
    destruct (Hpx data (Hdec _ _ E)) as (Hbg & Hacc & Htr).
    split; [exact Hbg|]. split; [exact Hacc|].
    split; [|split; [|apply isDark64_spec]].
    + intros Hlt. rewrite Htr.
      apply Nat.ltb_lt in Hlt. now rewrite Hlt.
    + intros Hge. rewrite Htr. apply Nat.ltb_ge in Hge. now rewrite Hge.
  - intros [->|[->|(src & -> & E)]]; [split; reflexivity|split; reflexivity|].
    unfold theme, generateThemeFromImage64.
    destruct src as [|c0 src]; [split; reflexivity|].
    rewrite E. split; reflexivity.
Qed.

Lemma flatGreen_decoder (src : string) (data : list Z) :
  (fun _ : string => Resolved flatGreenImage) src = Resolved data ->
  length data = (4 * 50 * 50)%nat.
Proof. intros [= <-]. apply flat_length. Qed.

(** On the flat green image one accent survives and the fallback is
    appended: the background (12, 175, 4) has the binary64 luminance
    127.99999999999999 and counts as dark. *)
Lemma tracks_at_least_two_witness :
  tracks (generateThemeFromImage64 (fun _ => Resolved flatGreenImage)
            (Some "cover.png"%string) 100 100)
  = ["#57fa4f"; "#ffffff"]%string.
Proof.
  destruct flatGreen_facts as (Hraw & Hacc & Hbg & Hdark & Hadj).
  destruct (proj1 (proj2 (tracks_at_least_two
                            (fun _ => Resolved flatGreenImage)
                            (Some "cover.png"%string) 100 100
                            flatGreen_decoder))
              "cover.png"%string flatGreenImage eq_refl
              ltac:(discriminate) eq_refl) as (Hb & _ & Hpad & _).
  rewrite Hpad.
  - rewrite Hb, Hraw, Hbg. unfold accents64. rewrite Hacc, Hdark.
    cbn [fmap list_fmap take]. rewrite Hadj. reflexivity.
  - rewrite Hb, Hraw, Hbg. unfold accents64. rewrite Hacc.
    cbn [fmap list_fmap take length]. lia.
Defined.

(** X16.  An image of one flat colour gives the smallest possible theme:
    that colour is the dominant one, it is the only accent candidate, and
    the tracks are the adjusted accent followed by the fallback, white when
    the binary64 luminance of the adjusted background is below 128 and black
    otherwise. *)
Theorem flat_image_theme (data : list Z) (n : nat) (p : Rgb)
  (brightness contrast : Q) :
  length data = (4 * n)%nat -> (0 < n)%nat ->
  (forall k, (k < n)%nat -> pixelAt data k = p) ->
  let hex := rgbToHex (inject_Z (r p)) (inject_Z (g p)) (inject_Z (b p)) in
  let bgHex := adjustColor64 hex brightness contrast in
  dominantColor (tallyLoop data) = p
  /\ accentLoop data = [hex]
  /\ background (themeFromPixels64 data brightness contrast) = bgHex
  /\ tracks (themeFromPixels64 data brightness contrast)
     = [adjustColor64 hex (if isDark64 bgHex then 150 else 50) contrast;
        (if isDark64 bgHex then "#ffffff" else "#000000")%string]
  /\ (isDark64 bgHex = true <-> (getHexLuminance64 bgHex < 128)%Q).
Proof.
  intros Hlen Hn Hflat hex bgHex.
  pose proof (flat_dominant data n p Hlen Hn Hflat) as Hdom.
  pose proof (flat_accentLoop data n p Hlen Hn Hflat) as Hacc.
  split; [exact Hdom|]. split; [exact Hacc|].
  unfold themeFromPixels64, rawBgHex. rewrite Hdom, Hacc.
  split; [reflexivity|]. split; [reflexivity|apply isDark64_spec].
Qed.

Lemma flat_image_theme_witness :
  dominantColor (tallyLoop flatGreenImage) = mkRgb 12 175 4.
Proof.
  refine (proj1 (flat_image_theme flatGreenImage 2500 (mkRgb 12 175 4) 100 100
                   (flat_length 12 175 4 255 2500) _ _)).
  - lia.
  - intros k Hk. now apply flat_pixels.
Defined.

(** ** The rows of the piano roll in binary64 *)

Section NoteY64Facts.

Local Open Scope Q_scope.

Lemma NOTE_HEIGHT64_eq (height : Q) :
  NOTE_HEIGHT64 height = fl (height * (1 # 88)).
Proof.
  unfold NOTE_HEIGHT64. apply fl_Qeq.
  change (inject_Z TOTAL_KEYS) with 88. field.
Qed.

Lemma NOTE_HEIGHT64_nonneg (height : Q) : 0 <= height -> 0 <= NOTE_HEIGHT64 height.
Proof. intros H. rewrite NOTE_HEIGHT64_eq. apply fl_nonneg. lra. Qed.

Lemma noteIndex_le (n n' : NoteEvent) :
  (note n <= note n')%Z ->
  inject_Z (note n - MIN_NOTE) <= inject_Z (note n' - MIN_NOTE).
Proof. intros H. rewrite <- Zle_Qle. lia. Qed.

(** A higher pitch never lies lower. *)
Lemma noteY64_mono (height : Q) (n n' : NoteEvent) :
  0 <= height -> (note n <= note n')%Z ->
  noteY64 height n' <= noteY64 height n.
Proof.
  intros Hh Hn. unfold noteY64.
  pose proof (NOTE_HEIGHT64_nonneg height Hh) as HN.
  pose proof (noteIndex_le n n' Hn) as Hk.
  apply fl_mono. apply Qplus_le_l. apply fl_mono.
  assert (fl (inject_Z (note n - MIN_NOTE) * NOTE_HEIGHT64 height)
          <= fl (inject_Z (note n' - MIN_NOTE) * NOTE_HEIGHT64 height)); [|lra].
  apply fl_mono. now apply Qmult_le_compat_r.
Qed.

Lemma noteY64_bottom (height : Q) (n : NoteEvent) :
  note n = 21%Z ->
  noteY64 height n = fl (fl height - NOTE_HEIGHT64 height).
Proof.
  intros E. unfold noteY64. rewrite E.
  change (inject_Z (21 - MIN_NOTE)) with 0.
  rewrite (fl_Qeq (0 * NOTE_HEIGHT64 height) 0) by ring. rewrite fl_0.
  rewrite (fl_Qeq (height - 0) height) by ring. reflexivity.
Qed.

Lemma noteY64_upper (height : Q) (n : NoteEvent) :
  0 <= height -> isBinary64 height -> (21 <= note n)%Z ->
  noteY64 height n <= height.
Proof.
  intros Hh Hb Hn. unfold noteY64.
  pose proof (NOTE_HEIGHT64_nonneg height Hh) as HN.
  assert (Hk : 0 <= inject_Z (note n - MIN_NOTE)).
  { change 0 with (inject_Z 0). rewrite <- Zle_Qle. unfold MIN_NOTE. lia. }
  pose proof (fl_nonneg _ (Qmult_le_0_compat _ _ Hk HN)) as HT.
  unfold isBinary64 in Hb.
  set (T := fl (inject_Z (note n - MIN_NOTE) * NOTE_HEIGHT64 height)) in *.
  pose proof (fl_mono (height - T) height ltac:(lra)) as H1.
  pose proof (fl_mono (fl (height - T) - NOTE_HEIGHT64 height) height
                ltac:(lra)) as H2.
  lra.
Qed.

(** The top row can lie above the edge, but only by a rounding error. *)
Lemma noteY64_lower (height : Q) (n : NoteEvent) :
  0 <= height -> (21 <= note n <= 108)%Z ->
  - ((height + 1) * (1 # 1125899906842624)) <= noteY64 height n.
Proof.
  intros Hh [Hlo Hhi].
  pose proof tiny64_small as [Hu1 Hu2].
  unfold noteY64. rewrite NOTE_HEIGHT64_eq.
  assert (Hq : 0 <= height * (1 # 88)) by lra.
  pose proof (fl_nonneg _ Hq) as HN0.
  pose proof (fl_near (height * (1 # 88)) (height * (1 # 88)) ltac:(lra))
    as [_ HN1].
  set (NH := fl (height * (1 # 88))) in *. clearbody NH.
  assert (Hk : 0 <= inject_Z (note n - MIN_NOTE) <= 87).
  { split; [change 0 with (inject_Z 0)|change 87 with (inject_Z 87)];
      rewrite <- Zle_Qle; unfold MIN_NOTE; lia. }
  set (k := inject_Z (note n - MIN_NOTE)) in *. clearbody k.
  assert (HkN : 0 <= k * NH <= 87 * NH).
  { split; [apply Qmult_le_0_compat; lra|apply Qmult_le_compat_r; lra]. }
  set (kN := k * NH) in *. clearbody kN.
  pose proof (fl_nonneg _ (proj1 HkN)) as HT0.
  pose proof (fl_mono _ _ (proj2 HkN)) as HT1.
  pose proof (fl_near (87 * NH) (87 * NH) ltac:(lra)) as [_ HT2].
  set (T := fl kN) in *. clearbody T.
  set (T87 := fl (87 * NH)) in *. clearbody T87.
  unfold eps64 in *.
  pose proof (fl_near (height - T) (height + 100 * tiny64) ltac:(lra))
    as [HS1 HS2].
  set (S := fl (height - T)) in *. clearbody S.
  unfold eps64 in *.
  pose proof (fl_near (S - NH) (2 * height + 200 * tiny64) ltac:(lra))
    as [HY _].
  unfold eps64 in *. lra.
Qed.

End NoteY64Facts.

(** X20.  The rows of the piano roll, as the program computes them: a higher
    pitch never lies lower; pitch 21 sits one rounded row height above the
    bottom edge; for a canvas height that is a binary64 number every pitch
    from 21 up has [y <= height], and for the pitches 21 to 108 the row lies
    above the top edge [y = 0] by a rounding error at most, less than
    [(height + 1) * 2^-50].  The top row does not always touch [y = 0]: at
    height 1080 pitch 108 gets [y = -3 * 2^-47], at height 1920 it gets
    [y = 47 * 2^-48]. *)
Theorem noteY_rows (height : Q) (n : NoteEvent) :
  ((0 <= height)%Q -> forall n', note n <= note n' ->
      (noteY64 height n' <= noteY64 height n)%Q)
  /\ (note n = 21 ->
      noteY64 height n = fl (fl height - NOTE_HEIGHT64 height))
  /\ ((0 <= height)%Q -> isBinary64 height -> 21 <= note n ->
      (noteY64 height n <= height)%Q)
  /\ ((0 <= height)%Q -> 21 <= note n <= 108 ->
      (- ((height + 1) * (1 # 1125899906842624)) <= noteY64 height n)%Q)
  /\ noteY64 1080 (mkNote 108 100 0 1 None None) = (-3 # 140737488355328)%Q
  /\ noteY64 1920 (mkNote 108 100 0 1 None None) = (47 # 281474976710656)%Q.
Proof.
  split; [intros Hh n' Hn; now apply noteY64_mono|].
  split; [apply noteY64_bottom|].
  split; [apply noteY64_upper|].
  split; [apply noteY64_lower|].
  split; vm_compute; reflexivity.
Qed.

Lemma noteY_rows_witness :
  (noteY64 1080 (mkNote 60 100 0 1 None None) <= 1080
   /\ - ((1080 + 1) * (1 # 1125899906842624))
      <= noteY64 1080 (mkNote 60 100 0 1 None None))%Q.
Proof.
  split.
  - apply (proj1 (proj2 (proj2 (noteY_rows 1080 (mkNote 60 100 0 1 None None))))).
    + discriminate.
    + unfold isBinary64. vm_compute. reflexivity.
    + simpl. lia.
  - apply (proj1 (proj2 (proj2 (proj2
             (noteY_rows 1080 (mkNote 60 100 0 1 None None)))))).
    + discriminate.
    + simpl. lia.
Defined.

(** ** The rounding against primitive binary64 numbers *)

Section PrimitiveFloats.

Import PrimFloat.
Local Open Scope float_scope.
#[local] Set Warnings "-inexact-float".

(** The numbers that decide the cases above, computed once more with the
    primitive binary64 operations: [0.1 + 0.2], the luminance of
    (12, 175, 4), the red channel of [#1c0000] at brightness 101 and
    contrast 109, and the row of pitch 108 on a canvas 1080 high. *)
Lemma fl_agrees_with_primitive_floats :
  valueOf 0.1 = Some (fl (1 # 10))
  /\ valueOf (0.1 + 0.2) = Some lateTime
  /\ valueOf (0.2126 * 12 + 0.7152 * 175 + 0.0722 * 4)
     = Some (getHexLuminance64 "#0caf04")
  /\ valueOf ((28 - 128) * (109 / 100) + 128 + (101 - 100) * 1.5)
     = Some (specChannel64 101 109 28)
  /\ valueOf (1080 - 87 * (1080 / 88) - 1080 / 88)
     = Some (noteY64 1080 (mkNote 108 100 0 1 None None)).
Proof.
  split; [vm_compute; reflexivity|]. split; [vm_compute; reflexivity|].
  split; [vm_compute; reflexivity|]. split; vm_compute; reflexivity.
Qed.

End PrimitiveFloats.
